(** * csim: a trace-driven cache simulator *)

(** A shallow embedding of [csim.c] and the properties of its cache model
    ([init], [evict], [getData]), of its trace replayer ([runTraceSim]) and of
    the argument check in [main].
    The C program keeps the cache, the statistics and the geometry in global
    variables; here they are the fields of one record, [globals], which every
    function takes and returns.  Arrays are lists, read and written by index
    with stdpp's lookup and insert: a read outside a list gives the line
    [mk_line 0 0 0] and a write outside changes nothing, where C leaves the
    behaviour undefined.  In the well-formed states of the properties below
    no index is outside its array. *)

From Stdlib Require Import ZArith Lia List Ascii.
From stdpp Require Import base list numbers strings.

Local Open Scope Z_scope.

(** * The embedding *)

(** ** Machine integers *)

(** [int] and [unsigned int] are 32 bits wide, [unsigned long] and
    [unsigned long long] 64 bits (LP64); the post-increment of an unsigned
    value wraps around. *)

Definition UINT_MAX : Z := 2 ^ 32 - 1.
Definition ULLONG_MAX : Z := 2 ^ 64 - 1.
Definition ULONG_MAX : Z := 2 ^ 64 - 1.
Definition INT_MAX : Z := 2 ^ 31 - 1.

Definition uint_incr (x : Z) : Z := (x + 1) mod 2 ^ 32.
Definition ullong_incr (x : Z) : Z := (x + 1) mod 2 ^ 64.

(** ** Data model *)

(** [addr_t]: unsigned long long int. *)
Abbreviation addr_t := Z (only parsing).

(** [line_t]: a cache line; [valid] is a [short] used as a flag. *)
Record line_t : Type := mk_line {
  valid : Z;
  tag : addr_t;
  lru : Z
}.

Abbreviation set_t := (list line_t) (only parsing).
Abbreviation cache_t := (list (list line_t)) (only parsing).

Record stats_t : Type := mk_stats {
  hits : Z;
  misses : Z;
  evictions : Z;
  lru_count : Z
}.

Record args_t : Type := mk_args {
  verbose : Z;
  idx_bits : Z;
  assoc : Z;
  block_bits : Z
}.

(** The global variables of the program. [t_addr] is [None] for [NULL]. *)
Record globals : Type := mk_globals {
  cache : cache_t;
  args : args_t;
  stats : stats_t;
  num_sets : Z;
  block_size : Z;
  t_addr : option string
}.

#[global] Instance line_t_inhabited : Inhabited line_t := populate (mk_line 0 0 0).

#[global] Instance line_t_eq_dec : EqDecision line_t.
Proof. solve_decision. Defined.

Definition set_cache (c : cache_t) (g : globals) : globals :=
  mk_globals c (args g) (stats g) (num_sets g) (block_size g) (t_addr g).
Definition set_stats (st : stats_t) (g : globals) : globals :=
  mk_globals (cache g) (args g) st (num_sets g) (block_size g) (t_addr g).
Definition set_args (a : args_t) (g : globals) : globals :=
  mk_globals (cache g) a (stats g) (num_sets g) (block_size g) (t_addr g).

(** Static storage is zero-initialised. *)
Definition globals0 : globals :=
  mk_globals [] (mk_args 0 0 0 0) (mk_stats 0 0 0 0) 0 0 None.

(** The flag test [if (set[line].valid)]. *)
Definition is_valid (l : line_t) : bool := negb (valid l =? 0).

(** ** init *)

(** Both loops of [init] run from 0 while below their bound, so a bound that
    is not positive gives no iteration. The allocations are taken to
    succeed. *)
Definition init (g : globals) : globals :=
  set_cache
    (replicate (Z.to_nat (num_sets g))
       (replicate (Z.to_nat (assoc (args g))) (mk_line 0 0 0)))
    g.

(** ** evict *)

(** One iteration of the scan of [evict]: [acc] is [(evict_at, lru)]. *)
Definition scan_step (s : set_t) (acc : nat * Z) (line : nat) : nat * Z :=
  if acc.2 >? lru (s !!! line) then (line, lru (s !!! line)) else acc.

(** The whole scan, for [line] from 0 while below [args.assoc]. *)
Definition evict_scan (s : set_t) (n : Z) : nat * Z :=
  fold_left (scan_step s) (seq 0 (Z.to_nat n)) (0%nat, ULONG_MAX).

(** The index [evict_at] that the scan leaves. *)
Definition victim (s : set_t) (n : Z) : nat := (evict_scan s n).1.

(** [evict(set, tag)]. The C function receives a pointer to the set inside
    the cache; the model receives the index [idx] of that set, and writes the
    line back into [cache[idx]]. *)
Definition evict (idx : nat) (tg : addr_t) (g : globals) : globals :=
  let s := cache g !!! idx in
  let evict_at := victim s (assoc (args g)) in
  let st := stats g in
  let st1 :=
    if is_valid (s !!! evict_at)
    then mk_stats (hits st) (misses st) (uint_incr (evictions st)) (lru_count st)
    else st in
  let s' := <[evict_at := mk_line 1 tg (lru_count st1)]> s in
  mk_globals (<[idx := s']> (cache g)) (args g)
    (mk_stats (hits st1) (misses st1) (evictions st1) (ullong_incr (lru_count st1)))
    (num_sets g) (block_size g) (t_addr g).

(** ** getData *)

(** The two address computations at the head of [getData]. The shifts are
    those of a 64-bit unsigned value, which [Z.shiftr] gives for an address
    below [2^64] and a count below 64. *)
Definition tag_of (g : globals) (addr : addr_t) : addr_t :=
  Z.shiftr addr (block_bits (args g) + idx_bits (args g)).

Definition set_of (g : globals) (addr : addr_t) : nat :=
  Z.to_nat (Z.land (Z.shiftr addr (block_bits (args g))) (num_sets g - 1)).

(** The search loop of [getData]: the first [line] below [n] that is valid
    and holds [tg], if there is one. *)
Definition line_matches (s : set_t) (tg : addr_t) (line : nat) : bool :=
  is_valid (s !!! line) && (tag (s !!! line) =? tg).

Definition find_line (s : set_t) (tg : addr_t) (n : Z) : option nat :=
  find (line_matches s tg) (seq 0 (Z.to_nat n)).

Definition getData (addr : addr_t) (g : globals) : globals :=
  let tg := tag_of g addr in
  let idx := set_of g addr in
  let s := cache g !!! idx in
  let st := stats g in
  match find_line s tg (assoc (args g)) with
  | Some line =>
      let l := s !!! line in
      mk_globals
        (<[idx := <[line := mk_line (valid l) (tag l) (lru_count st)]> s]> (cache g))
        (args g)
        (mk_stats (uint_incr (hits st)) (misses st) (evictions st)
           (ullong_incr (lru_count st)))
        (num_sets g) (block_size g) (t_addr g)
  | None =>
      evict idx tg
        (set_stats (mk_stats (hits st) (uint_incr (misses st)) (evictions st)
                      (lru_count st)) g)
  end.

(** The three ways through [getData] and [evict], named as the
    specification names them. The C functions return nothing: the outcome is
    the path taken. *)
Inductive Outcome : Type := Hit | MissNoEvict | MissWithEvict.

#[global] Instance Outcome_eq_dec : EqDecision Outcome.
Proof. solve_decision. Defined.

Definition outcome (addr : addr_t) (g : globals) : Outcome :=
  let s := cache g !!! set_of g addr in
  match find_line s (tag_of g addr) (assoc (args g)) with
  | Some _ => Hit
  | None =>
      if is_valid (s !!! victim s (assoc (args g)))
      then MissWithEvict else MissNoEvict
  end.

(** ** runTraceSim *)

(** What one call [fscanf(trace, " %c %llx,%d", ...)] gives: either all three
    items ([Matched], the call returns 3) or anything else ([Stopped n], the
    call returns [n], which is [EOF] or a count below 3, because the text at
    the read position does not have the form of a record). A trace file is
    the list of what the successive calls would give; the end of the list is
    the end of the file. *)
Inductive fscanf_t : Type :=
  | Matched (operation : ascii) (addr : addr_t) (size : Z)
  | Stopped (n : Z).

(** The [switch] in the loop body. *)
Definition replay_record (operation : ascii) (addr : addr_t) (g : globals) : globals :=
  if decide (operation = "L"%char) then getData addr g
  else if decide (operation = "S"%char) then getData addr g
  else if decide (operation = "M"%char) then getData addr (getData addr g)
  else g.

(** The loop [while (fscanf(...) == 3)]. *)
Fixpoint runTraceSim (trace : list fscanf_t) (g : globals) : globals :=
  match trace with
  | Matched operation addr _ :: rest => runTraceSim rest (replay_record operation addr g)
  | Stopped _ :: _ => g
  | [] => g
  end.

(** The state in which [main] calls [runTraceSim] for a geometry
    [-s s -E E -b b]: the sizes computed by the two shifts, then [init]. *)
Definition startup (s E b : Z) : globals :=
  init (mk_globals [] (mk_args 0 s E b) (mk_stats 0 0 0 0)
          (Z.shiftl 1 s) (Z.shiftl 1 b) None).

(** The calls of [getData] one after another. *)
Definition accesses (addrs : list addr_t) (g : globals) : globals :=
  fold_left (fun g a => getData a g) addrs g.

(** ** main *)

(** What the process does is recorded as a list of events, and a computation
    either goes on with a value or has ended the process with a status. *)

Inductive event : Type :=
  | EvPrintf (text : string)
  | EvInit
  | EvRunTraceSim (path : string)
  | EvPrintSummary (h m e : Z).

Inductive status (A : Type) : Type :=
  | Running (a : A)
  | Exited (code : Z)
  | Faulted.
Arguments Running {A} a.
Arguments Exited {A} code.
Arguments Faulted {A}.

Definition prog (A : Type) : Type := (list event * status A)%type.

#[global] Instance prog_ret : MRet prog := λ A a, ([], Running a).

#[global] Instance prog_bind : MBind prog := λ A B f m,
  match m with
  | (out, Running a) => let '(out', r) := f a in (out ++ out', r)
  | (out, Exited code) => (out, Exited code)
  | (out, Faulted) => (out, Faulted)
  end.

Definition printf (text : string) : prog unit := ([EvPrintf text], Running tt).
Definition exit {A : Type} (code : Z) : prog A := ([], Exited code).
Definition emit (e : event) : prog unit := ([e], Running tt).

(** [help]: the usage text, then [exit(0)]. Each [printf] is recorded with
    its text up to the newline that ends it; the text of the ninth starts
    with a newline of its own. *)
Definition help (argv0 : string) : prog unit :=
  printf ("Usage: " +:+ argv0 +:+ " [-hv] -s <num> -E <num> -b <num> -t <file>") ;;
  printf "Options:" ;;
  printf "  -h         Print this help message." ;;
  printf "  -v         Optional verbose flag." ;;
  printf "  -s <num>   Number of set index bits." ;;
  printf "  -E <num>   Number of lines per set." ;;
  printf "  -b <num>   Number of block offset bits." ;;
  printf "  -t <file>  Trace file." ;;
  printf (String "010"%char "Examples:") ;;
  printf ("  linux>  " +:+ argv0 +:+ " -s 4 -E 1 -b 4 -t traces/yi.trace") ;;
  printf ("  linux>  " +:+ argv0 +:+ " -v -s 8 -E 2 -b 4 -t traces/yi.trace") ;;
  exit 0.

(** What one call of [getopt] gives for the option string [s:E:b:t:vh]: the
    option character ([?] for an option that is not known), its argument,
    and the number that [atoi] reads from that argument. The command line
    is the list of what the successive calls give; at its end [getopt]
    returns -1. *)
Record getopt_t : Type := mk_getopt {
  arg : ascii;
  optarg : string;
  atoi_optarg : Z
}.

(** The loop over the options, with its [switch]. *)
Fixpoint getopt_loop (argv0 : string) (opts : list getopt_t) (g : globals)
    : prog globals :=
  match opts with
  | [] => mret g
  | o :: rest =>
      let a := args g in
      if decide (arg o = "s"%char) then
        getopt_loop argv0 rest
          (set_args (mk_args (verbose a) (atoi_optarg o) (assoc a) (block_bits a)) g)
      else if decide (arg o = "E"%char) then
        getopt_loop argv0 rest
          (set_args (mk_args (verbose a) (idx_bits a) (atoi_optarg o) (block_bits a)) g)
      else if decide (arg o = "b"%char) then
        getopt_loop argv0 rest
          (set_args (mk_args (verbose a) (idx_bits a) (assoc a) (atoi_optarg o)) g)
      else if decide (arg o = "t"%char) then
        getopt_loop argv0 rest
          (mk_globals (cache g) (args g) (stats g) (num_sets g) (block_size g)
             (Some (optarg o)))
      else if decide (arg o = "v"%char) then
        getopt_loop argv0 rest
          (set_args (mk_args 1 (idx_bits a) (assoc a) (block_bits a)) g)
      else if decide (arg o = "h"%char) then
        help argv0 ;; exit 0
      else
        help argv0 ;; exit 1
  end.

(** The test after the loop. *)
Definition args_missing (g : globals) : bool :=
  (idx_bits (args g) =? 0) || (assoc (args g) =? 0)
  || (block_bits (args g) =? 0) || bool_decide (t_addr g = None).

(** [main]. [fopen] gives the contents of the file at a path, if it can be
    opened; when it cannot, [fscanf] is called on a null stream. The two
    shifts are those of [int] for a count from 0 to 30. *)
Definition main (argv0 : string) (opts : list getopt_t)
    (fopen : string → option (list fscanf_t)) : prog Z :=
  g ← getopt_loop argv0 opts globals0;
  (if args_missing g then
     printf (argv0 +:+ ": Missing required command line argument") ;;
     help argv0 ;;
     exit 1
   else mret tt) ;;
  let g1 :=
    mk_globals (cache g) (args g) (stats g)
      (Z.shiftl 1 (idx_bits (args g))) (Z.shiftl 1 (block_bits (args g)))
      (t_addr g) in
  emit EvInit ;;
  let g2 := init g1 in
  match t_addr g2 with
  | None => ([], Faulted)
  | Some path =>
      emit (EvRunTraceSim path) ;;
      match fopen path with
      | None => ([], Faulted)
      | Some trace =>
          let g3 := runTraceSim trace g2 in
          emit (EvPrintSummary (hits (stats g3)) (misses (stats g3))
                  (evictions (stats g3))) ;;
          mret 0
      end
  end.

(** The cache is built and the trace replayed only after these events. *)
Definition core_started (out : list event) : Prop :=
  EvInit ∈ out ∨ ∃ path, EvRunTraceSim path ∈ out.

Definition opt (c : ascii) (text : string) (n : Z) : getopt_t := mk_getopt c text n.

(** * Notions for the properties *)

(** ** Well-formed states *)

(** A geometry that [main] can turn into a cache: the two shifts
    [1 << idx_bits] and [1 << block_bits] are those of [int], so the counts
    are at most 30, and the associativity is a positive [int]. *)
Definition geometry (s E b : Z) : Prop :=
  0 ≤ s ≤ 30 ∧ 1 ≤ E ≤ INT_MAX ∧ 0 ≤ b ≤ 30.

(** What [main] and [init] establish and every access keeps: the geometry is
    sound, the cache has [num_sets] sets of [assoc] lines, and the stamps are
    values of type [unsigned long long]. In such a state every index that
    [getData] and [evict] compute is inside its array. *)
Record wf (g : globals) : Prop := mk_wf {
  wf_geometry : geometry (idx_bits (args g)) (assoc (args g)) (block_bits (args g));
  wf_num : num_sets g = 2 ^ idx_bits (args g);
  wf_sets : length (cache g) = Z.to_nat (num_sets g);
  wf_lines : ∀ i s, cache g !! i = Some s → length s = Z.to_nat (assoc (args g));
  wf_lru : ∀ i s j l, cache g !! i = Some s → s !! j = Some l → 0 ≤ lru l ≤ ULLONG_MAX;
  wf_clock : 0 ≤ lru_count (stats g) ≤ ULLONG_MAX
}.

(** The line at position [(i, j)] of the cache. *)
Definition line_at (g : globals) (i j : nat) : option line_t :=
  cache g !! i ≫= (.!! j).

(** The line that an access writes: the line found, or else the victim. *)
Definition touched_line (addr : Z) (g : globals) : nat :=
  let s := cache g !!! set_of g addr in
  match find_line s (tag_of g addr) (assoc (args g)) with
  | Some line => line
  | None => victim s (assoc (args g))
  end.

(** ** Address decomposition *)

(** The decomposition in the words of the specification. *)
Definition spec_set_index (block_bits num_sets address : Z) : Z :=
  Z.shiftr address block_bits mod num_sets.

Definition spec_tag (block_bits index_bits address : Z) : Z :=
  Z.shiftr address (block_bits + index_bits).

(** ** A single set *)

(** A cache of one set whose first lines are [pre] and whose other [m]
    lines are as [init] left them. *)
Definition one_set (E b : Z) (pre : list line_t) (m : nat) (st : stats_t) : globals :=
  mk_globals [pre ++ replicate m (mk_line 0 0 0)] (mk_args 0 0 E b) st
    1 (Z.shiftl 1 b) None.

(** The lines already written are valid, hold other tags and carry stamps
    of at least [lo]. *)
Definition written (lo : Z) (tg : Z) (l : line_t) : Prop :=
  valid l = 1 ∧ lo ≤ lru l ≤ ULLONG_MAX ∧ tag l ≠ tg.

(** ** The counters over a whole replay *)

(** The addresses with which a replay calls [getData], in order. *)
Fixpoint access_list (trace : list fscanf_t) : list Z :=
  match trace with
  | Matched operation addr _ :: rest =>
      (if decide (operation = "L"%char ∨ operation = "S"%char) then [addr]
       else if decide (operation = "M"%char) then [addr; addr]
       else [])
      ++ access_list rest
  | Stopped _ :: _ => []
  | [] => []
  end.

(** The counters after [k] accesses, none of which has made one wrap. *)
Definition counted (k : Z) (g : globals) : Prop :=
  0 ≤ hits (stats g) ∧ 0 ≤ evictions (stats g) ≤ misses (stats g)
  ∧ hits (stats g) + misses (stats g) = k.

(** One access seen from the counters: one more hit, or one more miss with
    or without one more eviction. *)
Definition counts_one (g g' : globals) : Prop :=
  hits (stats g') = hits (stats g) + 1 ∧ misses (stats g') = misses (stats g)
    ∧ evictions (stats g') = evictions (stats g)
  ∨ hits (stats g') = hits (stats g) ∧ misses (stats g') = misses (stats g) + 1
    ∧ (evictions (stats g') = evictions (stats g)
       ∨ evictions (stats g') = evictions (stats g) + 1).

(** What [++] makes of an [unsigned int] counter holding [x]: [x + 1] below
    [UINT_MAX], and 0 from [UINT_MAX]. *)
Definition adds_one (x x' : Z) : Prop :=
  (x < UINT_MAX → x' = x + 1) ∧ (x = UINT_MAX → x' = 0).

(** A state for [-s 1 -E 1 -b 1] in which the line of set 0 holds tag 0 with
    stamp [l]; [other] is the line of set 1. *)
Definition resident (other : line_t) (l h m c : Z) : globals :=
  mk_globals [[mk_line 1 0 l]; [other]] (mk_args 0 1 1 1)
    (mk_stats h m 0 c) 2 2 None.

(** ** Tags and stamps *)

(** No two valid lines of a set hold the same tag. *)
Definition nodup_tags (g : globals) : Prop :=
  ∀ i j1 j2 l1 l2,
    line_at g i j1 = Some l1 → line_at g i j2 = Some l2 →
    valid l1 ≠ 0 → valid l2 ≠ 0 → tag l1 = tag l2 → j1 = j2.

(** The position that an access writes. *)
Definition touched (addr : Z) (g : globals) : nat * nat :=
  (set_of g addr, touched_line addr g).

(** The number of the last call, among the calls for [addrs] numbered from
    [k], that writes position [p]. *)
Fixpoint last_touch (addrs : list Z) (g : globals) (k : Z) (p : nat * nat)
    : option Z :=
  match addrs with
  | [] => None
  | a :: rest =>
      match last_touch rest (getData a g) (k + 1) p with
      | Some j => Some j
      | None => if decide (p = touched a g) then Some k else None
      end
  end.

(** ** Notions for further properties *)

(** The block of an address: the address without its [b] offset bits. *)
Definition block_of (g : globals) (addr : Z) : Z :=
  Z.shiftr addr (block_bits (args g)).

(** The number of lines of a list that satisfy a test. *)
Definition count_if (P : line_t → bool) (s : list line_t) : nat :=
  sum_list_with (λ l, if P l then 1%nat else 0%nat) s.

(** The number of valid lines of the cache. *)
Definition valid_count (g : globals) : nat :=
  sum_list_with (count_if is_valid) (cache g).

(** The number of lines of a set with a stamp below [c]. *)
Definition older (s : list line_t) (c : Z) : nat :=
  count_if (λ l, lru l <? c) s.

(** Every stamp in the cache is below the clock. *)
Definition stamps_below (g : globals) : Prop :=
  ∀ i j l, line_at g i j = Some l → lru l < lru_count (stats g).


(** A line as the program ever has it: untouched since [init], or written
    with flag 1. *)
Definition line_shape (l : line_t) : Prop :=
  l = mk_line 0 0 0 ∨ valid l = 1.

(** Line [p] of the set of [a] holds the block of [a], and all lines of the
    set but [k] of the others carry an older stamp. *)
Definition still_held (g : globals) (a : Z) (p k : nat) : Prop :=
  ∃ lp, line_at g (set_of g a) p = Some lp
        ∧ valid lp ≠ 0 ∧ tag lp = tag_of g a
        ∧ (length (cache g !!! set_of g a)
           ≤ older (cache g !!! set_of g a) (lru lp) + 1 + k)%nat.

(** Two states that agree on all that the cache model reads and writes: they
    may differ in [verbose], [block_size] and [t_addr]. *)
Definition core_eq (g g' : globals) : Prop :=
  cache g = cache g' ∧ stats g = stats g' ∧ num_sets g = num_sets g'
  ∧ idx_bits (args g) = idx_bits (args g')
  ∧ assoc (args g) = assoc (args g')
  ∧ block_bits (args g) = block_bits (args g').

(** The option characters that take [main] on to the next option; any other
    character ends the process in [help]. *)
Definition option_goes_on (o : getopt_t) : bool :=
  bool_decide (arg o = "s"%char) || bool_decide (arg o = "E"%char)
  || bool_decide (arg o = "b"%char) || bool_decide (arg o = "t"%char)
  || bool_decide (arg o = "v"%char).


(** * Properties *)

(** The side conditions on a concrete geometry. *)
Ltac solve_geometry := unfold geometry, INT_MAX; lia.

(** ** Two runs *)

(** The geometry [-s 1 -E 1 -b 1] on five records that fall on two sets. *)
Example end_to_end :
  stats (runTraceSim
           [Matched "L" 0 1; Matched "L" 2 1; Matched "L" 4 1;
            Matched "S" 6 1; Matched "L" 0 1] (startup 1 1 1))
  = mk_stats 0 5 3 5.
Proof. vm_compute. reflexivity. Qed.

(** The trace of the usage text, [traces/yi.trace], with [-s 4 -E 1 -b 4]:
    the addresses are 10, 20, 22, 18, 110, 210 and 12 in hexadecimal. *)
Example yi_trace :
  stats (runTraceSim
           [Matched "L" 16 1; Matched "M" 32 1; Matched "L" 34 1;
            Matched "S" 24 1; Matched "L" 272 1; Matched "L" 528 1;
            Matched "M" 18 1] (startup 4 1 4))
  = mk_stats 4 5 3 9.
Proof. vm_compute. reflexivity. Qed.

(** ** The scans *)

Section Scans.
Context (s : list line_t).

Lemma scan_fold_snoc (n : nat) (acc : nat * Z) :
  fold_left (scan_step s) (seq 0 (S n)) acc
  = scan_step s (fold_left (scan_step s) (seq 0 n) acc) n.
Proof. rewrite seq_S, fold_left_app. reflexivity. Qed.

(** The loop invariant of the scan in [evict]. *)
Lemma evict_scan_inv (n : nat) :
  let r := fold_left (scan_step s) (seq 0 n) (0%nat, ULONG_MAX) in
  (∀ j, (j < n)%nat → r.2 ≤ lru (s !!! j) ∨ ULONG_MAX < lru (s !!! j) ∧ r.2 = ULONG_MAX)
  ∧ (∀ j, (j < r.1)%nat → r.2 < lru (s !!! j))
  ∧ ((r.1 < n)%nat ∧ lru (s !!! r.1) = r.2 ∧ r.2 < ULONG_MAX
     ∨ r.1 = 0%nat ∧ r.2 = ULONG_MAX ∧ ∀ j, (j < n)%nat → ULONG_MAX ≤ lru (s !!! j)).
Proof.
  induction n as [|n IH]; intros r.
  - subst r; simpl. split; [intros; lia|]. split; [intros; lia|].
    right. repeat split; intros; lia.
  - subst r. rewrite scan_fold_snoc.
    set (r := fold_left (scan_step s) (seq 0 n) (0%nat, ULONG_MAX)) in *.
    simpl in IH. destruct IH as (Hmin & Hfirst & Hat).
    unfold scan_step. destruct (Z.gtb_spec r.2 (lru (s !!! n))) as [Hgt|Hle]; simpl.
    + split; [|split].
      * intros j Hj. destruct (decide (j = n)) as [->|]; [left; lia|].
        destruct (Hmin j ltac:(lia)) as [?|[? ?]]; [left; lia|].
        destruct Hat as [(_ & _ & ?)|(_ & ? & _)]; left; lia.
      * intros j Hj. destruct (Hmin j Hj) as [?|[? ?]]; [|lia].
        destruct Hat as [(Hlt & Heq & ?)|(? & ? & Hall)].
        -- destruct (decide (j < r.1)%nat) as [Hjr|Hjr].
           ++ specialize (Hfirst j Hjr). lia.
           ++ (* r.2 is the least stamp below n, met first at r.1 ≤ j *)
              lia.
        -- specialize (Hall j Hj). lia.
      * left. destruct Hat as [(? & ? & ?)|(? & ? & ?)]; repeat split; lia.
    + split; [|split].
      * intros j Hj. destruct (decide (j = n)) as [->|]; [|apply Hmin; lia].
        destruct Hat as [(? & ? & ?)|(? & ? & ?)]; [left; lia|].
        destruct (decide (lru (s !!! n) ≤ ULONG_MAX)); [left; lia|right; lia].
      * exact Hfirst.
      * destruct Hat as [(? & ? & ?)|(? & ? & Hall)]; [left; repeat split; lia|].
        right. repeat split; try lia. intros j Hj.
        destruct (decide (j = n)) as [->|]; [lia|apply Hall; lia].
Qed.
End Scans.

(** The victim of a set of [n ≥ 1] lines whose stamps fit the type: it is a
    line of the set, no line has a smaller stamp, and every line before it
    has a greater one. *)
Lemma victim_min (s : list line_t) (n : Z) :
  1 ≤ n →
  (∀ j, (j < Z.to_nat n)%nat → lru (s !!! j) ≤ ULONG_MAX) →
  (victim s n < Z.to_nat n)%nat
  ∧ (∀ j, (j < Z.to_nat n)%nat → lru (s !!! victim s n) ≤ lru (s !!! j))
  ∧ (∀ j, (j < victim s n)%nat → lru (s !!! victim s n) < lru (s !!! j)).
Proof.
  intros Hn Hmax. unfold victim, evict_scan.
  destruct (evict_scan_inv s (Z.to_nat n)) as (Hmin & Hfirst & Hat).
  set (r := fold_left (scan_step s) (seq 0 (Z.to_nat n)) (0%nat, ULONG_MAX)) in *.
  destruct Hat as [(Hlt & Heq & _)|(H0 & Hr & Hall)].
  - split; [exact Hlt|]. rewrite Heq. split.
    + intros j Hj. destruct (Hmin j Hj) as [?|[? ?]]; lia.
    + exact Hfirst.
  - rewrite H0. split; [lia|]. split.
    + intros j Hj. pose proof (Hmax 0%nat ltac:(lia)). pose proof (Hall j Hj). lia.
    + intros; lia.
Qed.

Lemma find_line_Some (s : list line_t) (tg n : Z) (line : nat) :
  find_line s tg n = Some line →
  (line < Z.to_nat n)%nat ∧ is_valid (s !!! line) = true ∧ tag (s !!! line) = tg.
Proof.
  unfold find_line. intros H. apply find_some in H as [Hin Hm].
  apply in_seq in Hin. unfold line_matches in Hm.
  apply andb_prop in Hm as [? ?]. repeat split; [lia|done|lia].
Qed.

Lemma find_line_None (s : list line_t) (tg n : Z) :
  find_line s tg n = None ↔
  ∀ line, (line < Z.to_nat n)%nat → is_valid (s !!! line) = true → tag (s !!! line) ≠ tg.
Proof.
  unfold find_line. split.
  - intros H line Hl Hv Ht.
    pose proof (find_none _ _ H line) as Hn. unfold line_matches in Hn.
    rewrite Hv, Ht, Z.eqb_refl in Hn. discriminate Hn. apply in_seq. lia.
  - intros H. destruct (find _ _) as [line|] eqn:Hf; [|done].
    apply find_some in Hf as [Hin Hm]. apply in_seq in Hin.
    unfold line_matches in Hm. apply andb_prop in Hm as [Hv Ht].
    exfalso. apply (H line); [lia|done|lia].
Qed.

Lemma find_line_is_Some (s : list line_t) (tg n : Z) (line : nat) :
  (line < Z.to_nat n)%nat → is_valid (s !!! line) = true → tag (s !!! line) = tg →
  is_Some (find_line s tg n).
Proof.
  intros Hl Hv Ht. destruct (find_line s tg n) eqn:Hf; [eauto|].
  exfalso. eapply find_line_None; eauto.
Qed.

(** ** What an access keeps and what it writes *)

Lemma getData_args addr g : args (getData addr g) = args g.
Proof. unfold getData. destruct (find_line _ _ _); reflexivity. Qed.

Lemma getData_num_sets addr g : num_sets (getData addr g) = num_sets g.
Proof. unfold getData. destruct (find_line _ _ _); reflexivity. Qed.

Lemma getData_length addr g : length (cache (getData addr g)) = length (cache g).
Proof.
  unfold getData. destruct (find_line _ _ _); simpl; by rewrite length_insert.
Qed.

Lemma wf_idx (g : globals) : wf g → 0 ≤ idx_bits (args g).
Proof. intros [(? & _ & _) _ _ _ _ _]. lia. Qed.

Lemma wf_assoc (g : globals) : wf g → 1 ≤ assoc (args g).
Proof. intros [(_ & ? & _) _ _ _ _ _]. lia. Qed.

(** The set index is the low [idx_bits] bits of the block number. *)
Lemma set_of_mod (g : globals) (addr : Z) :
  0 ≤ idx_bits (args g) → num_sets g = 2 ^ idx_bits (args g) →
  Z.of_nat (set_of g addr) = Z.shiftr addr (block_bits (args g)) mod num_sets g.
Proof.
  intros Hs Hn. unfold set_of. rewrite Hn.
  replace (2 ^ idx_bits (args g) - 1) with (Z.ones (idx_bits (args g)))
    by (rewrite Z.ones_equiv; lia).
  rewrite Z.land_ones by done.
  rewrite Z2Nat.id; [done|]. apply Z.mod_pos_bound. lia.
Qed.

Lemma set_of_lt (g : globals) (addr : Z) :
  wf g → (set_of g addr < length (cache g))%nat.
Proof.
  intros Hwf. pose proof (set_of_mod g addr (wf_idx g Hwf) (wf_num g Hwf)) as H.
  rewrite (wf_sets g Hwf).
  assert (0 < num_sets g) by (rewrite (wf_num g Hwf); apply Z.pow_pos_nonneg; [lia|apply Hwf]).
  pose proof (Z.mod_pos_bound (Z.shiftr addr (block_bits (args g))) (num_sets g) ltac:(lia)).
  lia.
Qed.

Lemma touched_line_lt (addr : Z) (g : globals) :
  wf g → (touched_line addr g < Z.to_nat (assoc (args g)))%nat.
Proof.
  intros Hwf. unfold touched_line.
  destruct (find_line _ _ _) as [line|] eqn:Hf.
  - by apply find_line_Some in Hf as [? _].
  - apply victim_min; [apply Hwf|].
    intros j Hj. pose proof (set_of_lt g addr Hwf) as Hlt.
    apply lookup_lt_is_Some_2 in Hlt as [s Hs].
    rewrite (list_lookup_total_correct _ _ _ Hs).
    assert (is_Some (s !! j)) as [l Hl].
    { apply lookup_lt_is_Some_2. rewrite (wf_lines g Hwf _ _ Hs). lia. }
    rewrite (list_lookup_total_correct _ _ _ Hl).
    unfold ULONG_MAX. pose proof (wf_lru g Hwf _ _ _ _ Hs Hl) as Hr.
    unfold ULLONG_MAX in Hr. lia.
Qed.

(** An access rewrites exactly one line: the one at
    [(set_of g addr, touched_line addr g)], which becomes valid, holds the tag
    of the address and is stamped with the clock. *)
Lemma getData_cache (addr : Z) (g : globals) :
  cache (getData addr g)
  = <[set_of g addr :=
        <[touched_line addr g :=
            mk_line (match outcome addr g with
                     | Hit => valid ((cache g !!! set_of g addr) !!! touched_line addr g)
                     | _ => 1 end)
                    (tag_of g addr) (lru_count (stats g))]>
          (cache g !!! set_of g addr)]> (cache g).
Proof.
  unfold getData, touched_line, outcome.
  destruct (find_line _ _ _) as [line|] eqn:Hf; simpl.
  - apply find_line_Some in Hf as (_ & _ & Ht). by rewrite Ht.
  - unfold evict; simpl. by destruct (is_valid _).
Qed.

(** The statistics after an access, by outcome. *)
Lemma getData_stats (addr : Z) (g : globals) :
  stats (getData addr g)
  = let st := stats g in
    match outcome addr g with
    | Hit =>
        mk_stats (uint_incr (hits st)) (misses st) (evictions st)
          (ullong_incr (lru_count st))
    | MissNoEvict =>
        mk_stats (hits st) (uint_incr (misses st)) (evictions st)
          (ullong_incr (lru_count st))
    | MissWithEvict =>
        mk_stats (hits st) (uint_incr (misses st)) (uint_incr (evictions st))
          (ullong_incr (lru_count st))
    end.
Proof.
  unfold getData, outcome.
  destruct (find_line _ _ _) as [line|]; simpl; [done|].
  unfold evict; simpl. by destruct (is_valid _).
Qed.

(** The whole state after an access. *)
Lemma getData_eta (addr : Z) (g : globals) :
  getData addr g
  = mk_globals (cache (getData addr g)) (args g) (stats (getData addr g))
      (num_sets g) (block_size g) (t_addr g).
Proof. unfold getData. by destruct (find_line _ _ _). Qed.

Lemma getData_clock (addr : Z) (g : globals) :
  lru_count (stats (getData addr g)) = ullong_incr (lru_count (stats g)).
Proof. rewrite getData_stats. simpl. by destruct (outcome addr g). Qed.

(** Reading the cache after an access. *)
Lemma getData_line_at (addr : Z) (g : globals) (i j : nat) :
  wf g →
  line_at (getData addr g) i j
  = if decide (i = set_of g addr ∧ j = touched_line addr g)
    then Some (mk_line
                 (match outcome addr g with
                  | Hit => valid ((cache g !!! i) !!! j)
                  | _ => 1 end)
                 (tag_of g addr) (lru_count (stats g)))
    else line_at g i j.
Proof.
  intros Hwf. unfold line_at. rewrite getData_cache.
  pose proof (set_of_lt g addr Hwf) as Hlt.
  destruct (lookup_lt_is_Some_2 _ _ Hlt) as [s Hs].
  rewrite (list_lookup_total_correct _ _ _ Hs).
  pose proof (touched_line_lt addr g Hwf) as Htl.
  destruct (decide (i = set_of g addr)) as [->|Hi].
  - rewrite list_lookup_insert_eq by done. simpl. rewrite Hs. simpl.
    destruct (decide (j = touched_line addr g)) as [->|Hj].
    + rewrite decide_True by done.
      rewrite list_lookup_insert_eq; [|rewrite (wf_lines g Hwf _ _ Hs); lia].
      by rewrite (list_lookup_total_correct _ _ _ Hs).
    + rewrite decide_False by tauto. by rewrite list_lookup_insert_ne.
  - rewrite decide_False by tauto. by rewrite list_lookup_insert_ne.
Qed.

Lemma line_at_Some (g : globals) (i j : nat) (l : line_t) :
  line_at g i j = Some l ↔ ∃ s, cache g !! i = Some s ∧ s !! j = Some l.
Proof.
  unfold line_at. destruct (cache g !! i) as [s|]; simpl; split.
  - intros H. eauto.
  - by intros (s' & [= <-] & H).
  - done.
  - by intros (s' & H & _).
Qed.

Lemma line_at_total (g : globals) (i j : nat) (l : line_t) :
  line_at g i j = Some l → (cache g !!! i) !!! j = l.
Proof.
  intros (s & Hs & Hl)%line_at_Some.
  rewrite (list_lookup_total_correct _ _ _ Hs).
  by rewrite (list_lookup_total_correct _ _ _ Hl).
Qed.

Lemma line_at_is_Some (g : globals) (i j : nat) :
  wf g →
  is_Some (line_at g i j)
  ↔ (i < Z.to_nat (num_sets g))%nat ∧ (j < Z.to_nat (assoc (args g)))%nat.
Proof.
  intros Hwf. unfold line_at. split.
  - intros [l Hl]. destruct (cache g !! i) as [s|] eqn:Hs; simpl in Hl; [|done].
    split.
    + rewrite <- (wf_sets g Hwf). by eapply lookup_lt_Some.
    + rewrite <- (wf_lines g Hwf _ _ Hs). by eapply lookup_lt_Some.
  - intros [Hi Hj]. rewrite <- (wf_sets g Hwf) in Hi.
    destruct (lookup_lt_is_Some_2 _ _ Hi) as [s Hs]. rewrite Hs. simpl.
    apply lookup_lt_is_Some_2. by rewrite (wf_lines g Hwf _ _ Hs).
Qed.

Lemma ullong_incr_range (x : Z) : 0 ≤ ullong_incr x ≤ ULLONG_MAX.
Proof.
  unfold ullong_incr, ULLONG_MAX.
  pose proof (Z.mod_pos_bound (x + 1) (2 ^ 64) ltac:(lia)). lia.
Qed.

(** Every access keeps the state well formed. *)
Lemma getData_wf (addr : Z) (g : globals) : wf g → wf (getData addr g).
Proof.
  intros Hwf.
  pose proof (set_of_lt g addr Hwf) as Hlt.
  destruct (lookup_lt_is_Some_2 _ _ Hlt) as [s Hs].
  constructor; rewrite ?getData_args, ?getData_num_sets, ?getData_length;
    try apply Hwf.
  - intros i s'. rewrite getData_cache.
    rewrite (list_lookup_total_correct _ _ _ Hs).
    destruct (decide (i = set_of g addr)) as [->|Hi].
    + rewrite list_lookup_insert_eq by done. intros [= <-].
      rewrite length_insert. by apply (wf_lines g Hwf _ _ Hs).
    + rewrite list_lookup_insert_ne by done. apply Hwf.
  - intros i s' j l Hs' Hl.
    assert (line_at (getData addr g) i j = Some l) as Hat
      by (apply line_at_Some; eauto).
    rewrite getData_line_at in Hat by done.
    destruct (decide _) as [_|_].
    + injection Hat as <-. simpl. apply Hwf.
    + apply line_at_Some in Hat as (s0 & Hs0 & Hl0). by eapply (wf_lru g Hwf).
  - rewrite getData_clock. apply ullong_incr_range.
Qed.

Lemma accesses_wf (addrs : list Z) (g : globals) : wf g → wf (accesses addrs g).
Proof.
  revert g. induction addrs as [|a addrs IH]; intros g Hwf; [done|].
  simpl. apply IH. by apply getData_wf.
Qed.

(** [main] hands a well-formed state to the replay. *)
Lemma startup_wf (s E b : Z) : geometry s E b → wf (startup s E b).
Proof.
  intros Hgeo. pose proof Hgeo as (Hs & HE & Hb).
  constructor; simpl; try done.
  - rewrite Z.shiftl_1_l. done.
  - by rewrite length_replicate.
  - intros i s0 [-> _]%lookup_replicate. by rewrite length_replicate.
  - intros i s0 j l [-> _]%lookup_replicate [-> _]%lookup_replicate. simpl.
    unfold ULLONG_MAX. lia.
Qed.

(** ** Address decomposition *)

Lemma uint_incr_neq (x : Z) : uint_incr x ≠ x.
Proof.
  unfold uint_incr. intros H.
  pose proof (Z.div_mod (x + 1) (2 ^ 32) ltac:(lia)) as Hdm.
  rewrite H in Hdm. lia.
Qed.

(** C2. For a geometry with [s ≥ 0], [b ≥ 0] and [num_sets = 2^s], the set
    index that [getData] computes is [(address >> b) mod num_sets] and the
    tag is [address >> (b + s)]. The lookup of the access is in the set at
    that index and for that tag: the call counts a hit exactly when a valid
    line of that set holds that tag, and a miss exactly when none does; after
    it (in a well-formed state) a valid line of that set holds that tag with
    the clock of the call as its stamp; and no other set is changed. *)
Theorem getData_decomposes (g : globals) (addr : Z) :
  0 ≤ idx_bits (args g) →
  0 ≤ block_bits (args g) →
  num_sets g = 2 ^ idx_bits (args g) →
  let set_index := spec_set_index (block_bits (args g)) (num_sets g) addr in
  let tg := spec_tag (block_bits (args g)) (idx_bits (args g)) addr in
  let found :=
    ∃ line, (line < Z.to_nat (assoc (args g)))%nat
            ∧ valid ((cache g !!! Z.to_nat set_index) !!! line) ≠ 0
            ∧ tag ((cache g !!! Z.to_nat set_index) !!! line) = tg in
  Z.of_nat (set_of g addr) = set_index
  ∧ tag_of g addr = tg
  ∧ (outcome addr g = Hit ↔ found)
  ∧ (hits (stats (getData addr g)) ≠ hits (stats g) ↔ found)
  ∧ (misses (stats (getData addr g)) ≠ misses (stats g) ↔ ¬ found)
  ∧ (wf g →
     ∃ line l, (line < Z.to_nat (assoc (args g)))%nat
               ∧ line_at (getData addr g) (Z.to_nat set_index) line = Some l
               ∧ valid l ≠ 0 ∧ tag l = tg ∧ lru l = lru_count (stats g))
  ∧ (∀ i, i ≠ Z.to_nat set_index → cache (getData addr g) !! i = cache g !! i).
Proof.
  intros Hs Hb Hn set_index tg found.
  assert (Z.of_nat (set_of g addr) = set_index) as Hidx by by apply set_of_mod.
  assert (Z.to_nat set_index = set_of g addr) as Hnat by lia.
  assert (outcome addr g = Hit ↔ found) as Hfound.
  { unfold found. rewrite Hnat. unfold outcome. split.
    - destruct (find_line _ _ _) as [line|] eqn:Hf.
      + intros _. apply find_line_Some in Hf as (Hl & Hv & Ht).
        exists line. repeat split; [done| |done].
        unfold is_valid in Hv. apply negb_true_iff, Z.eqb_neq in Hv. done.
      + by destruct (is_valid _).
    - intros (line & Hl & Hv & Ht).
      destruct (find_line_is_Some (cache g !!! set_of g addr) (tag_of g addr)
                  (assoc (args g)) line) as [line' ->]; try done.
      unfold is_valid. by apply negb_true_iff, Z.eqb_neq. }
  split; [done|]. split; [done|]. split; [done|].
  split; [|split; [|split]].
  - rewrite <- Hfound, getData_stats. cbv zeta.
    destruct (outcome addr g); cbn [hits]; split; try done.
    intros _. apply uint_incr_neq.
  - rewrite <- Hfound, getData_stats. cbv zeta.
    destruct (outcome addr g); cbn [misses]; split; try done.
    + intros _. apply uint_incr_neq.
    + intros _. apply uint_incr_neq.
  - intros Hwf. rewrite Hnat.
    exists (touched_line addr g). eexists.
    split; [by apply touched_line_lt|].
    split; [rewrite (getData_line_at addr g _ _ Hwf); by rewrite decide_True|].
    cbn [valid tag lru]. split; [|done].
    unfold outcome, touched_line.
    destruct (find_line _ _ _) as [line|] eqn:Hf.
    + apply find_line_Some in Hf as (_ & Hv & _).
      unfold is_valid in Hv. by apply negb_true_iff, Z.eqb_neq in Hv.
    + by destruct (is_valid _).
  - intros i Hi. rewrite Hnat in Hi. rewrite getData_cache.
    by rewrite list_lookup_insert_ne.
Qed.

Lemma getData_decomposes_witness :
  Z.of_nat (set_of (startup 2 1 3) 89) = 3 ∧ tag_of (startup 2 1 3) 89 = 2
  ∧ ∃ line l, line_at (getData 89 (startup 2 1 3)) 3 line = Some l
              ∧ valid l ≠ 0 ∧ tag l = 2.
Proof.
  destruct (getData_decomposes (startup 2 1 3) 89)
    as (H1 & H2 & _ & _ & _ & H6 & _); [simpl; lia|simpl; lia|reflexivity|].
  split; [exact H1|]. split; [exact H2|].
  destruct H6 as (line & l & _ & Hat & Hv & Ht & _).
  - apply startup_wf. solve_geometry.
  - exists line, l. split; [exact Hat|]. split; [exact Hv|exact Ht].
Defined.

(** ** The replay loop *)

(** C4, as the code has it. A record with operation [L] or [S] makes one
    call of [getData] on its address, one with [M] two calls in a row on the
    same address, any other none; and a call adds one to [hits] alone on a
    hit, to [misses] alone on a miss without eviction, to [misses] and
    [evictions] on a miss with eviction, where a counter that holds
    [UINT_MAX] goes to 0 instead. *)
Theorem replay_calls_and_counts :
  (∀ operation addr size rest g,
     runTraceSim (Matched operation addr size :: rest) g
     = runTraceSim rest
         (if decide (operation = "L"%char ∨ operation = "S"%char)
          then accesses [addr] g
          else if decide (operation = "M"%char) then accesses [addr; addr] g
          else accesses [] g))
  ∧ (∀ addr g,
       let st := stats g in
       let st' := stats (getData addr g) in
       0 ≤ hits st ≤ UINT_MAX → 0 ≤ misses st ≤ UINT_MAX →
       0 ≤ evictions st ≤ UINT_MAX →
       match outcome addr g with
       | Hit =>
           adds_one (hits st) (hits st') ∧ misses st' = misses st
           ∧ evictions st' = evictions st
       | MissNoEvict =>
           hits st' = hits st ∧ adds_one (misses st) (misses st')
           ∧ evictions st' = evictions st
       | MissWithEvict =>
           hits st' = hits st ∧ adds_one (misses st) (misses st')
           ∧ adds_one (evictions st) (evictions st')
       end).
Proof.
  assert (∀ x, 0 ≤ x ≤ UINT_MAX → adds_one x (uint_incr x)) as Hone.
  { intros x Hx. unfold adds_one, uint_incr, UINT_MAX in *. split.
    - intros Hlt. apply Z.mod_small. lia.
    - intros ->. reflexivity. }
  split.
  - intros operation addr size rest g. simpl. f_equal. unfold replay_record.
    repeat case_decide; try done; intuition congruence.
  - intros addr g. cbv zeta. intros Hh Hm He. rewrite getData_stats. cbv zeta.
    destruct (outcome addr g); cbn [hits misses evictions]; auto.
Qed.

Lemma replay_calls_and_counts_witness :
  let g := getData 0 (startup 1 1 1) in
  hits (stats (getData 0 g)) = hits (stats g) + 1
  ∧ misses (stats (getData 4 g)) = misses (stats g) + 1.
Proof.
  cbv zeta. split.
  - pose proof (proj2 replay_calls_and_counts 0 (getData 0 (startup 1 1 1))) as H.
    cbv zeta in H.
    specialize (H ltac:(by vm_compute) ltac:(by vm_compute) ltac:(by vm_compute)).
    change (outcome 0 (getData 0 (startup 1 1 1))) with Hit in H.
    destruct H as ((H & _) & _). apply H. by vm_compute.
  - pose proof (proj2 replay_calls_and_counts 4 (getData 0 (startup 1 1 1))) as H.
    cbv zeta in H.
    specialize (H ltac:(by vm_compute) ltac:(by vm_compute) ltac:(by vm_compute)).
    change (outcome 4 (getData 0 (startup 1 1 1))) with MissWithEvict in H.
    destruct H as (_ & (H & _) & _). apply H. by vm_compute.
Defined.

(** ** The second access of an [M] record *)

(** After an access, the touched line is valid and holds the tag of the
    address, so the same address is found again. *)
Lemma getData_then_hit (addr : Z) (g : globals) :
  wf g → outcome addr (getData addr g) = Hit.
Proof.
  intros Hwf. unfold outcome.
  assert (set_of (getData addr g) addr = set_of g addr) as ->
    by (unfold set_of; by rewrite getData_args, getData_num_sets).
  assert (tag_of (getData addr g) addr = tag_of g addr) as ->
    by (unfold tag_of; by rewrite getData_args).
  rewrite getData_args.
  pose proof (getData_line_at addr g (set_of g addr) (touched_line addr g) Hwf) as Hat.
  rewrite decide_True in Hat by done.
  apply line_at_total in Hat.
  destruct (find_line_is_Some (cache (getData addr g) !!! set_of g addr)
              (tag_of g addr) (assoc (args g)) (touched_line addr g)) as [line ->];
    [by apply touched_line_lt| |by rewrite Hat|done].
  rewrite Hat. unfold is_valid; simpl.
  unfold outcome, touched_line.
  destruct (find_line _ _ _) as [line|] eqn:Hf.
  - by apply find_line_Some in Hf as (_ & Hv & _).
  - by destruct (is_valid _).
Qed.




(** ** One set: the order of replacement *)

(** The victim is determined by being the first line with the least stamp. *)
Lemma victim_unique (s : list line_t) (n : Z) (i : nat) :
  1 ≤ n →
  (∀ j, (j < Z.to_nat n)%nat → lru (s !!! j) ≤ ULONG_MAX) →
  (i < Z.to_nat n)%nat →
  (∀ j, (j < Z.to_nat n)%nat → lru (s !!! i) ≤ lru (s !!! j)) →
  (∀ j, (j < i)%nat → lru (s !!! i) < lru (s !!! j)) →
  victim s n = i.
Proof.
  intros Hn Hmax Hi Hmin Hfirst.
  destruct (victim_min s n Hn Hmax) as (Hv & Hvmin & Hvfirst).
  destruct (Nat.lt_trichotomy (victim s n) i) as [Hlt|[Heq|Hgt]]; [|done|].
  - specialize (Hfirst _ Hlt). specialize (Hvmin _ Hi). lia.
  - specialize (Hvfirst _ Hgt). specialize (Hmin _ Hv). lia.
Qed.

Lemma startup_one_set (E b : Z) :
  startup 0 E b = one_set E b [] (Z.to_nat E) (mk_stats 0 0 0 0).
Proof. reflexivity. Qed.

Lemma one_set_set_of (E b : Z) pre m st addr :
  set_of (one_set E b pre m st) addr = 0%nat.
Proof. unfold set_of; simpl. by rewrite Z.land_0_r. Qed.

Lemma one_set_tag_of (E b : Z) pre m st addr :
  tag_of (one_set E b pre m st) addr = Z.shiftr addr b.
Proof. unfold tag_of; simpl. by rewrite Z.add_0_r. Qed.

Lemma one_set_find_None (E : Z) (pre : list line_t) (m : nat) (tg lo : Z) :
  (length pre + m = Z.to_nat E)%nat →
  Forall (written lo tg) pre →
  find_line (pre ++ replicate m (mk_line 0 0 0)) tg E = None.
Proof.
  intros Hlen Hpre. apply find_line_None. intros line Hl Hv Ht.
  destruct (decide (line < length pre)%nat) as [Hlt|Hge].
  - destruct (lookup_lt_is_Some_2 _ _ Hlt) as [l Hline].
    rewrite (list_lookup_total_correct _ _ l) in Ht
      by (by rewrite lookup_app_l).
    rewrite Forall_lookup in Hpre. by destruct (Hpre _ _ Hline) as (_ & _ & ?).
  - rewrite (list_lookup_total_correct _ _ (mk_line 0 0 0)) in Hv; [done|].
    rewrite lookup_app_r by lia. apply lookup_replicate. split; [done|lia].
Qed.

(** A new tag goes to the first line that [init] left, when the written
    lines carry stamps of at least 1. *)
Lemma one_set_fill (E b : Z) pre m st addr :
  (length pre + S m = Z.to_nat E)%nat →
  Forall (written 1 (Z.shiftr addr b)) pre →
  getData addr (one_set E b pre (S m) st)
  = one_set E b (pre ++ [mk_line 1 (Z.shiftr addr b) (lru_count st)]) m
      (mk_stats (hits st) (uint_incr (misses st)) (evictions st)
         (ullong_incr (lru_count st))).
Proof.
  intros Hlen Hpre. unfold getData.
  rewrite one_set_set_of, one_set_tag_of.
  change (cache (one_set E b pre (S m) st) !!! 0%nat)
    with (pre ++ replicate (S m) (mk_line 0 0 0)).
  change (assoc (args (one_set E b pre (S m) st))) with E.
  rewrite (one_set_find_None E pre (S m) _ 1) by done.
  unfold evict.
  change (cache (set_stats _ (one_set E b pre (S m) st)) !!! 0%nat)
    with (pre ++ replicate (S m) (mk_line 0 0 0)).
  change (assoc (args (set_stats _ (one_set E b pre (S m) st)))) with E.
  assert (∀ j, (j < length pre)%nat →
               1 ≤ lru ((pre ++ replicate (S m) (mk_line 0 0 0)) !!! j) ≤ ULLONG_MAX)
    as Hlo.
  { intros j Hj. destruct (lookup_lt_is_Some_2 _ _ Hj) as [l Hl].
    rewrite (list_lookup_total_correct _ _ l) by (by rewrite lookup_app_l).
    rewrite Forall_lookup in Hpre. by destruct (Hpre _ _ Hl) as (_ & ? & _). }
  assert (∀ j, (length pre ≤ j < Z.to_nat E)%nat →
               (pre ++ replicate (S m) (mk_line 0 0 0)) !!! j = mk_line 0 0 0)
    as Hhi.
  { intros j Hj. apply list_lookup_total_correct.
    rewrite lookup_app_r by lia. apply lookup_replicate. split; [done|lia]. }
  assert (victim (pre ++ replicate (S m) (mk_line 0 0 0)) E = length pre) as ->.
  { apply victim_unique; [lia| |lia| |].
    - intros j Hj. destruct (decide (j < length pre)%nat).
      + unfold ULONG_MAX. unfold ULLONG_MAX in Hlo. apply Hlo. done.
      + rewrite Hhi by lia. cbn [lru]. unfold ULONG_MAX. lia.
    - intros j Hj. rewrite (Hhi (length pre)) by lia. cbn [lru].
      destruct (decide (j < length pre)%nat).
      + pose proof (Hlo j ltac:(done)). lia.
      + rewrite Hhi by lia. cbn [lru]. lia.
    - intros j Hj. rewrite (Hhi (length pre)) by lia. cbn [lru].
      pose proof (Hlo j Hj). lia. }
  rewrite Hhi by lia. simpl.
  unfold one_set. f_equal. f_equal.
  rewrite insert_app_r_alt by lia. rewrite Nat.sub_diag. simpl.
  by rewrite <- app_assoc.
Qed.

(** When line 0 is valid and no line carries a smaller stamp, a new tag
    takes line 0. *)
Lemma one_set_first_is_victim (E b : Z) (l0 : line_t) (pre : list line_t)
    (m : nat) (tg : Z) :
  1 ≤ E →
  (S (length pre) + m = Z.to_nat E)%nat →
  written 0 tg l0 →
  Forall (written (lru l0) tg) pre →
  (m = 0%nat ∨ lru l0 = 0) →
  let s := (l0 :: pre) ++ replicate m (mk_line 0 0 0) in
  find_line s tg E = None ∧ victim s E = 0%nat.
Proof.
  intros HE Hlen (Hv0 & Hr0 & Ht0) Hpre Hm s. split.
  - apply (one_set_find_None E (l0 :: pre) m tg 0); [done|].
    constructor; [done|]. eapply Forall_impl; [exact Hpre|].
    intros l (? & ? & ?). unfold written. repeat split; try done; lia.
  - assert (∀ j, (j < Z.to_nat E)%nat → lru l0 ≤ lru (s !!! j) ≤ ULLONG_MAX) as Hall.
    { intros j Hj. subst s. destruct j as [|j]; [simpl; lia|].
      change (((l0 :: pre) ++ replicate m (mk_line 0 0 0)) !!! S j)
        with ((pre ++ replicate m (mk_line 0 0 0)) !!! j).
      destruct (decide (j < length pre)%nat) as [Hlt|Hge].
      - destruct (lookup_lt_is_Some_2 _ _ Hlt) as [l Hl].
        rewrite (list_lookup_total_correct _ _ l) by (by rewrite lookup_app_l).
        rewrite Forall_lookup in Hpre. by destruct (Hpre _ _ Hl) as (_ & ? & _).
      - rewrite (list_lookup_total_correct _ _ (mk_line 0 0 0)).
        + cbn [lru]. unfold ULLONG_MAX. lia.
        + rewrite lookup_app_r by lia. apply lookup_replicate. split; [done|lia]. }
    apply victim_unique; [done| |lia| |intros; lia].
    + intros j Hj. unfold ULONG_MAX. pose proof (Hall j Hj) as H.
      unfold ULLONG_MAX in H. lia.
    + intros j Hj. apply Hall. done.
Qed.

Lemma one_set_evict_first (E b : Z) (l0 : line_t) (pre : list line_t)
    (m : nat) (st : stats_t) (addr : Z) :
  1 ≤ E →
  (S (length pre) + m = Z.to_nat E)%nat →
  written 0 (Z.shiftr addr b) l0 →
  Forall (written (lru l0) (Z.shiftr addr b)) pre →
  (m = 0%nat ∨ lru l0 = 0) →
  let g := one_set E b (l0 :: pre) m st in
  outcome addr g = MissWithEvict
  ∧ touched_line addr g = 0%nat
  ∧ getData addr g
    = one_set E b (mk_line 1 (Z.shiftr addr b) (lru_count st) :: pre) m
        (mk_stats (hits st) (uint_incr (misses st)) (uint_incr (evictions st))
           (ullong_incr (lru_count st))).
Proof.
  intros HE Hlen Hl0 Hpre Hm g.
  destruct (one_set_first_is_victim E b l0 pre m _ HE Hlen Hl0 Hpre Hm) as [Hf Hv].
  assert (is_valid l0 = true) as Hvalid
    by (destruct Hl0 as (Hv0 & _); unfold is_valid; by rewrite Hv0).
  assert (outcome addr g = MissWithEvict) as Ho.
  { unfold outcome. subst g. rewrite one_set_set_of, one_set_tag_of.
    change (cache (one_set E b (l0 :: pre) m st) !!! 0%nat)
      with ((l0 :: pre) ++ replicate m (mk_line 0 0 0)).
    change (assoc (args (one_set E b (l0 :: pre) m st))) with E.
    rewrite Hf, Hv. simpl. by rewrite Hvalid. }
  assert (touched_line addr g = 0%nat) as Ht.
  { unfold touched_line. subst g. rewrite one_set_set_of, one_set_tag_of.
    change (cache (one_set E b (l0 :: pre) m st) !!! 0%nat)
      with ((l0 :: pre) ++ replicate m (mk_line 0 0 0)).
    change (assoc (args (one_set E b (l0 :: pre) m st))) with E.
    by rewrite Hf, Hv. }
  split; [done|]. split; [done|].
  rewrite getData_eta, getData_cache, getData_stats, Ho, Ht. subst g.
  rewrite one_set_set_of, one_set_tag_of. reflexivity.
Qed.

(** Each further new tag takes the next line that [init] left. *)
Lemma one_set_fill_all (E b : Z) (rest : list Z) :
  ∀ (pre : list line_t) (m : nat) (st : stats_t),
    1 ≤ E → 
    (length pre + length rest + m = Z.to_nat E)%nat →
    1 ≤ lru_count st →
    lru_count st + Z.of_nat (length rest) ≤ ULLONG_MAX →
    (∀ tg, tg ∈ map (λ a, Z.shiftr a b) rest →
           Forall (written 1 tg) pre) →
    NoDup (map (λ a, Z.shiftr a b) rest) →
    ∃ (post : list line_t) (st' : stats_t),
      accesses rest (one_set E b pre (length rest + m) st)
      = one_set E b (pre ++ post) m st'
      ∧ length post = length rest
      ∧ Forall (λ l, valid l = 1 ∧ lru_count st ≤ lru l ≤ ULLONG_MAX
                     ∧ tag l ∈ map (λ a, Z.shiftr a b) rest) post
      ∧ hits st' = hits st
      ∧ evictions st' = evictions st
      ∧ lru_count st' = lru_count st + Z.of_nat (length rest).
Proof.
  induction rest as [|a rest IH]; intros pre m st HE Hlen Hc Hmax Hpre Hnd.
  - exists [], st. simpl. rewrite app_nil_r. repeat split; try done. lia.
  - simpl in Hlen, Hmax. apply NoDup_cons in Hnd as [Hna Hnd].
    change (accesses (a :: rest) ?g) with (accesses rest (getData a g)).
    change (length (a :: rest) + m)%nat with (S (length rest + m)).
    rewrite one_set_fill; [|lia|apply Hpre; simpl; by left].
    assert (ullong_incr (lru_count st) = lru_count st + 1) as Hincr.
    { unfold ullong_incr. unfold ULLONG_MAX in Hmax.
      apply Z.mod_small. lia. }
    rewrite Hincr.
    destruct (IH (pre ++ [mk_line 1 (Z.shiftr a b) (lru_count st)]) m
                (mk_stats (hits st) (uint_incr (misses st)) (evictions st)
                   (lru_count st + 1)))
      as (post & st' & Heq & Hlp & Hpost & Hh & He & Hclk); try done.
    + rewrite length_app. simpl. lia.
    + simpl. lia.
    + simpl. lia.
    + intros tg Htg. apply Forall_app. split.
      * apply Hpre. simpl. by right.
      * constructor; [|done]. unfold written; simpl. repeat split; try lia.
        intros Heq. apply Hna. by rewrite Heq.
    + exists (mk_line 1 (Z.shiftr a b) (lru_count st) :: post), st'.
      rewrite Heq. rewrite <- app_assoc. simpl in *.
      repeat split; try done; try lia.
      constructor.
      * simpl. repeat split; try lia. by left.
      * eapply Forall_impl; [exact Hpost|]. simpl.
        intros l (? & ? & ?). repeat split; try done; try lia. by right.
Qed.

(** The state of a single set of [E] lines after accesses to [E + 1]
    addresses with distinct tags: line 0 holds the second tag with stamp 1,
    the other lines hold later tags with later stamps. *)
Lemma one_set_after_sweep (E b a1 a2 : Z) (rest : list Z) :
  1 ≤ E ≤ INT_MAX →
  Z.of_nat (length (a1 :: a2 :: rest)) = E + 1 →
  NoDup (map (λ a, Z.shiftr a b) (a1 :: a2 :: rest)) →
  ∃ (post : list line_t) (st : stats_t),
    accesses (a1 :: a2 :: rest) (startup 0 E b)
    = one_set E b (mk_line 1 (Z.shiftr a2 b) 1 :: post) 0 st
    ∧ (S (length post) = Z.to_nat E)%nat
    ∧ Forall (written 1 (Z.shiftr a1 b)) post.
Proof.
  intros [HE1 HE2] Hlen Hnd. simpl in Hlen.
  rewrite !fmap_cons in Hnd.
  apply NoDup_cons in Hnd as [Hn1 Hnd]. apply NoDup_cons in Hnd as [Hn2 Hnd].
  rewrite startup_one_set.
  change (accesses (a1 :: a2 :: rest) ?g)
    with (accesses rest (getData a2 (getData a1 g))).
  replace (Z.to_nat E) with (S (length rest)) by lia.
  rewrite (one_set_fill E b [] (length rest)); [|simpl; lia|constructor].
  cbn [app hits misses evictions lru_count].
  destruct (one_set_evict_first E b (mk_line 1 (Z.shiftr a1 b) 0) [] (length rest)
              (mk_stats 0 (uint_incr 0) 0 (ullong_incr 0)) a2)
    as (_ & _ & ->); [lia|simpl; lia| |constructor|by right|].
  { unfold written, ULLONG_MAX; simpl. repeat split; try lia.
    intros Heq. apply Hn1. rewrite Heq. by left. }
  cbn [hits misses evictions lru_count].
  change (ullong_incr 0) with 1. change (ullong_incr 1) with 2.
  destruct (one_set_fill_all E b rest [mk_line 1 (Z.shiftr a2 b) 1] 0%nat
              (mk_stats 0 (uint_incr (uint_incr 0)) (uint_incr 0) 2))
    as (post & st' & Heq & Hlp & Hpost & _); try done.
  - simpl. lia.
  - simpl. unfold ULLONG_MAX. unfold INT_MAX in HE2. lia.
  - intros tg Htg. constructor; [|done]. unfold written, ULLONG_MAX; simpl.
    repeat split; try lia. intros Heq. apply Hn2. by rewrite Heq.
  - rewrite Nat.add_0_r in Heq. rewrite Heq.
    exists post, st'. split; [done|]. split; [lia|].
    eapply Forall_impl; [exact Hpost|]. simpl.
    intros l (Hv & Hr & Ht). unfold written. repeat split; try done; try lia.
    intros Heq'. apply Hn1. rewrite <- Heq'. by right.
Qed.

(** C1, as the code has it. In a single set of [E] lines, after accesses to
    [E + 1] addresses with pairwise distinct tags [t1 .. t(E+1)] from the
    start, the access to the first address again is a miss with eviction;
    no line holds [t1] then, and the line evicted is the one that holds
    [t2], which is the least recently used; the other lines are kept. *)
Theorem lru_reaccess_evicts_second (E b a1 a2 : Z) (rest : list Z) :
  geometry 0 E b →
  Z.of_nat (length (a1 :: a2 :: rest)) = E + 1 →
  NoDup (map (tag_of (startup 0 E b)) (a1 :: a2 :: rest)) →
  let g := accesses (a1 :: a2 :: rest) (startup 0 E b) in
  let v := touched_line a1 g in
  outcome a1 g = MissWithEvict
  ∧ (∀ j l, line_at g 0 j = Some l → tag l ≠ tag_of g a1)
  ∧ (∃ l, line_at g 0 v = Some l ∧ valid l ≠ 0 ∧ tag l = tag_of g a2
          ∧ ∀ j l', line_at g 0 j = Some l' → lru l ≤ lru l')
  ∧ (∃ l, line_at (getData a1 g) 0 v = Some l ∧ valid l ≠ 0
          ∧ tag l = tag_of g a1)
  ∧ (∀ j, j ≠ v → line_at (getData a1 g) 0 j = line_at g 0 j).
Proof.
  intros (_ & HE & _) Hlen Hnd g v.
  assert (NoDup (map (λ a, Z.shiftr a b) (a1 :: a2 :: rest))) as Hnd'.
  { erewrite map_ext; [exact Hnd|]. intros a. unfold tag_of; simpl.
    by rewrite Z.add_0_r. }
  destruct (one_set_after_sweep E b a1 a2 rest HE Hlen Hnd')
    as (post & st & Hg & Hlp & Hpost).
  fold g in Hg.
  assert (written 0 (Z.shiftr a1 b) (mk_line 1 (Z.shiftr a2 b) 1)) as Hl0.
  { unfold written, ULLONG_MAX; simpl. repeat split; try lia.
    simpl in Hnd'. apply NoDup_cons in Hnd' as [Hn1 _].
    intros Heq. apply Hn1. rewrite <- Heq. by left. }
  destruct (one_set_evict_first E b (mk_line 1 (Z.shiftr a2 b) 1) post 0 st a1)
    as (Ho & Ht & Hget); [lia|lia|done|done|by left|].
  rewrite <- Hg in Ho, Ht, Hget. fold v in Ht.
  assert (∀ a, tag_of g a = Z.shiftr a b) as Htag
    by (intros a; rewrite Hg; apply one_set_tag_of).
  assert (∀ j, line_at g 0 j = (mk_line 1 (Z.shiftr a2 b) 1 :: post) !! j) as Hline.
  { intros j. rewrite Hg. unfold line_at, one_set; simpl.
    by rewrite app_nil_r. }
  split; [done|]. split; [|split; [|split]].
  - intros j l. rewrite Hline, Htag. destruct j as [|j]; simpl.
    + intros [= <-]. by destruct Hl0 as (_ & _ & ?).
    + intros Hl. rewrite Forall_lookup in Hpost.
      by destruct (Hpost _ _ Hl) as (_ & _ & ?).
  - exists (mk_line 1 (Z.shiftr a2 b) 1). rewrite Hline, Ht, Htag. simpl.
    repeat split; try done. intros j l'. rewrite Hline.
    destruct j as [|j]; simpl.
    + by intros [= <-].
    + intros Hl. rewrite Forall_lookup in Hpost.
      by destruct (Hpost _ _ Hl) as (_ & [? _] & _).
  - exists (mk_line 1 (Z.shiftr a1 b) (lru_count st)).
    rewrite Hget, Ht, Htag. unfold line_at, one_set; simpl. done.
  - intros j Hj. rewrite Hget, Hline. rewrite Ht in Hj.
    unfold line_at, one_set; simpl. rewrite app_nil_r.
    destruct j as [|j]; [done|]. done.
Qed.

Lemma lru_reaccess_evicts_second_witness :
  let g := accesses [8; 16; 24] (startup 0 2 3) in
  outcome 8 g = MissWithEvict
  ∧ tag ((cache g !!! 0%nat) !!! touched_line 8 g) = tag_of g 16.
Proof.
  destruct (lru_reaccess_evicts_second 2 3 8 16 [24])
    as (Ho & _ & (l & Hl & _ & Ht & _) & _).
  - solve_geometry.
  - reflexivity.
  - vm_compute. repeat constructor; rewrite ?list_elem_of_In; simpl; lia.
  - split; [exact Ho|]. apply line_at_total in Hl. rewrite Hl. exact Ht.
Defined.

(** C1 as it is worded fails: with two lines and tags 1, 2, 3, the access to
    tag 1 again is a miss with eviction, but the line evicted holds tag 2,
    not tag 1. *)
Lemma lru_reaccess_does_not_evict_first :
  let g := accesses [1; 2; 3] (startup 0 2 0) in
  outcome 1 g = MissWithEvict
  ∧ tag_of g 1 = 1
  ∧ tag ((cache g !!! 0%nat) !!! touched_line 1 g) = 2
  ∧ tag ((cache g !!! 0%nat) !!! touched_line 1 g) ≠ tag_of g 1.
Proof. vm_compute. repeat split; congruence. Qed.

(** ** Text that does not scan *)

Lemma runTraceSim_stopped (pre post : list fscanf_t) (n : Z) (g : globals) :
  runTraceSim (pre ++ Stopped n :: post) g = runTraceSim pre g.
Proof.
  revert g. induction pre as [|[operation addr size|k] pre IH]; intros g; simpl; done.
Qed.

(** C6, as the code has it. The loop ends at the first call of [fscanf] that
    does not give three items: what lies before it is replayed, the text
    that did not scan reaches neither the cache nor the statistics, and
    nothing after it is replayed either. A record that scans but whose
    operation is none of [L], [S], [M] changes nothing, and the replay goes
    on with the records after it. *)
Theorem malformed_line_ends_replay :
  (∀ pre n post g, runTraceSim (pre ++ Stopped n :: post) g = runTraceSim pre g)
  ∧ (∀ pre operation addr size post g,
       operation ≠ "L"%char → operation ≠ "S"%char → operation ≠ "M"%char →
       runTraceSim (pre ++ Matched operation addr size :: post) g
       = runTraceSim (pre ++ post) g).
Proof.
  split.
  - intros pre n post g. apply runTraceSim_stopped.
  - intros pre operation addr size post g HL HS HM. revert g.
    induction pre as [|[op a sz|k] pre IH]; intros g; simpl.
    + unfold replay_record. by rewrite !decide_False.
    + apply IH.
    + done.
Qed.

Lemma malformed_line_ends_replay_witness :
  runTraceSim [Matched "L" 0 1; Stopped 1; Matched "L" 0 1] (startup 1 1 1)
  = runTraceSim [Matched "L" 0 1] (startup 1 1 1)
  ∧ runTraceSim [Matched "L" 0 1; Matched "I" 8 4; Matched "L" 0 1] (startup 1 1 1)
    = runTraceSim [Matched "L" 0 1; Matched "L" 0 1] (startup 1 1 1).
Proof.
  destruct malformed_line_ends_replay as [Hstop Hskip]. split.
  - exact (Hstop [Matched "L" 0 1] 1 [Matched "L" 0 1] (startup 1 1 1)).
  - apply (Hskip [Matched "L" 0 1] "I"%char 8 4 [Matched "L" 0 1] (startup 1 1 1));
      discriminate.
Defined.

(** C6 as it is worded fails. In a file with the lines [ L 0,1], [ X] and
    [ L 0,1] the second call of [fscanf] reads [X] as the operation, finds
    no hexadecimal number and returns 1; the loop ends, and the third line,
    which would have been a hit, is not replayed. *)
Lemma records_after_malformed_line_are_dropped :
  let g := startup 1 1 1 in
  let trace := [Matched "L" 0 1; Stopped 1; Matched "L" 0 1] in
  let skipped := [Matched "L" 0 1; Matched "L" 0 1] in
  hits (stats (runTraceSim trace g)) = 0
  ∧ hits (stats (runTraceSim skipped g)) = 1
  ∧ runTraceSim trace g ≠ runTraceSim skipped g.
Proof. vm_compute. repeat split; congruence. Qed.

(** ** main *)

Example main_runs :
  main "csim" [opt "s" "1" 1; opt "E" "1" 1; opt "b" "1" 1; opt "t" "t" 0]
    (λ _, Some [Matched "L" 0 1; Matched "L" 4 1])
  = ([EvInit; EvRunTraceSim "t"; EvPrintSummary 0 2 1], Running 0).
Proof. vm_compute. reflexivity. Qed.

(** The loop over the options prints nothing unless it ends the process. *)
Lemma getopt_loop_running (argv0 : string) (opts : list getopt_t)
    (g g' : globals) (out : list event) :
  getopt_loop argv0 opts g = (out, Running g') → out = [].
Proof.
  revert g. induction opts as [|o opts IH]; intros g; simpl.
  - by intros [= <- _].
  - repeat case_decide; try apply IH; by vm_compute.
Qed.

Lemma help_output (argv0 : string) :
  ∃ out, help argv0 = (out, Exited 0) ∧ Forall (λ e, ∃ text, e = EvPrintf text) out.
Proof.
  eexists. split; [reflexivity|]. repeat constructor; eauto.
Qed.

(** What [main] does when the test after the loop finds an argument
    missing: the message, then [help], which ends the process itself, so
    that the [exit(1)] written after it is not reached. *)
Lemma main_args_missing (argv0 : string) (opts : list getopt_t)
    (fopen : string → option (list fscanf_t)) (g : globals) :
  getopt_loop argv0 opts globals0 = ([], Running g) →
  args_missing g = true →
  main argv0 opts fopen
  = (EvPrintf (argv0 +:+ ": Missing required command line argument")
       :: (help argv0).1, Exited 0).
Proof.
  intros Hloop Hmiss. unfold main. rewrite Hloop.
  unfold mbind at 1, prog_bind at 1. rewrite Hmiss. reflexivity.
Qed.

(** C8, as the code has it. When, after the options are read, the number of
    index bits, the associativity or the number of block bits is zero, or
    there is no trace path, [main] prints the message about the missing
    argument and the usage text and the process ends there: [init] is not
    called and no trace is replayed. *)
Theorem missing_argument_stops_before_core (argv0 : string)
    (opts : list getopt_t) (fopen : string → option (list fscanf_t))
    (out : list event) (g : globals) :
  getopt_loop argv0 opts globals0 = (out, Running g) →
  idx_bits (args g) = 0 ∨ assoc (args g) = 0 ∨ block_bits (args g) = 0
    ∨ t_addr g = None →
  let report :=
    EvPrintf (argv0 +:+ ": Missing required command line argument")
      :: (help argv0).1 in
  (∃ code, main argv0 opts fopen = (report, Exited code))
  ∧ ¬ core_started report.
Proof.
  intros Hloop Hzero report.
  pose proof (getopt_loop_running _ _ _ _ _ Hloop) as ->.
  assert (args_missing g = true) as Hmiss.
  { unfold args_missing.
    destruct Hzero as [-> | [-> | [-> | ->]]]; simpl;
      rewrite ?orb_true_r; done. }
  split.
  - exists 0. by apply (main_args_missing argv0 opts fopen g).
  - destruct (help_output argv0) as (usage & Hhelp & Husage).
    unfold report. rewrite Hhelp. simpl.
    rewrite Forall_forall in Husage.
    intros [Hin|[path Hin]]; apply elem_of_cons in Hin as [Heq|Hin]; try done;
      by destruct (Husage _ Hin).
Qed.

Lemma missing_argument_stops_before_core_witness :
  ∃ report code,
    main "csim" [opt "s" "4" 4; opt "E" "0" 0; opt "b" "4" 4; opt "t" "yi.trace" 0]
      (λ _, Some [])
    = (report, Exited code) ∧ ¬ core_started report.
Proof.
  destruct (missing_argument_stops_before_core "csim"
              [opt "s" "4" 4; opt "E" "0" 0; opt "b" "4" 4; opt "t" "yi.trace" 0]
              (λ _, Some []) []
              (mk_globals [] (mk_args 0 4 0 4) (mk_stats 0 0 0 0) 0 0 (Some "yi.trace")))
    as ((code & Hmain) & Hcore).
  - reflexivity.
  - right; left. reflexivity.
  - eexists _, code. split; [exact Hmain|exact Hcore].
Defined.

(** C8 as it is worded fails for a negative number: the test compares with
    zero only. With [-E -1] (and an empty trace) [init] is called, the
    trace is opened, the summary is printed and [main] returns 0. *)
Lemma negative_associativity_is_accepted :
  let run :=
    main "csim" [opt "s" "1" 1; opt "E" "-1" (-1); opt "b" "1" 1; opt "t" "t" 0]
      (λ _, Some []) in
  run = ([EvInit; EvRunTraceSim "t"; EvPrintSummary 0 0 0], Running 0)
  ∧ core_started run.1.
Proof. split; [by vm_compute|]. left. vm_compute. by left. Qed.

(** ** The counters over a whole replay *)

Lemma accesses_app (xs ys : list Z) (g : globals) :
  accesses (xs ++ ys) g = accesses ys (accesses xs g).
Proof. unfold accesses. apply fold_left_app. Qed.

Lemma runTraceSim_accesses (trace : list fscanf_t) (g : globals) :
  runTraceSim trace g = accesses (access_list trace) g.
Proof.
  revert g. induction trace as [|[operation addr size|n] trace IH]; intros g;
    simpl; [done| |done].
  rewrite accesses_app, IH. f_equal. unfold replay_record.
  repeat case_decide; try done; intuition congruence.
Qed.

Lemma uint_incr_small (x : Z) : 0 ≤ x < UINT_MAX → uint_incr x = x + 1.
Proof. unfold UINT_MAX, uint_incr. intros H. apply Z.mod_small. lia. Qed.

Lemma getData_counted (addr k : Z) (g : globals) :
  counted k g → k < UINT_MAX →
  counts_one g (getData addr g) ∧ counted (k + 1) (getData addr g).
Proof.
  intros (Hh & He & Hk) Hlt. unfold counts_one, counted.
  rewrite getData_stats. simpl.
  destruct (outcome addr g); simpl;
    rewrite ?(uint_incr_small (hits (stats g))),
            ?(uint_incr_small (misses (stats g))),
            ?(uint_incr_small (evictions (stats g))) by lia; lia.
Qed.

Lemma accesses_counted (addrs : list Z) (k : Z) (g : globals) :
  counted k g → k + Z.of_nat (length addrs) ≤ UINT_MAX →
  counted (k + Z.of_nat (length addrs)) (accesses addrs g).
Proof.
  revert k g. induction addrs as [|a addrs IH]; intros k g Hc Hlen.
  - simpl. by rewrite Z.add_0_r.
  - rewrite length_cons, Nat2Z.inj_succ in Hlen |- *.
    destruct (getData_counted a k g Hc ltac:(lia)) as [_ Hc'].
    replace (k + Z.succ (Z.of_nat (length addrs)))
      with (k + 1 + Z.of_nat (length addrs)) by lia.
    apply (IH (k + 1) (getData a g)); [done|lia].
Qed.

(** C10, as the code has it. From counters at zero, after a replay that
    makes [n] calls of [getData] with [n] at most [UINT_MAX]: [evictions] is
    at most [misses], [hits] plus [misses] is [n], and each call added one to
    exactly one of [hits] and [misses], added one to [evictions] only
    together with [misses], and lowered no counter. *)
Theorem counters_account_for_accesses (trace : list fscanf_t) (g : globals) :
  hits (stats g) = 0 → misses (stats g) = 0 → evictions (stats g) = 0 →
  Z.of_nat (length (access_list trace)) ≤ UINT_MAX →
  let st := stats (runTraceSim trace g) in
  evictions st ≤ misses st
  ∧ hits st + misses st = Z.of_nat (length (access_list trace))
  ∧ ∀ before addr after,
      access_list trace = before ++ addr :: after →
      counts_one (accesses before g) (getData addr (accesses before g)).
Proof.
  intros Hh Hm He Hlen st.
  assert (counted 0 g) as Hc0 by (unfold counted; lia).
  pose proof (accesses_counted (access_list trace) 0 g Hc0 ltac:(lia)) as Hc.
  rewrite <- runTraceSim_accesses in Hc. subst st.
  destruct Hc as (_ & ? & ?). split; [lia|]. split; [lia|].
  intros before addr after Hsplit.
  rewrite Hsplit, length_app in Hlen. simpl in Hlen.
  pose proof (accesses_counted before 0 g Hc0 ltac:(lia)) as Hb.
  eapply getData_counted; [exact Hb|lia].
Qed.

Lemma counters_account_for_accesses_witness :
  let trace := [Matched "L" 0 1; Matched "M" 4 1; Matched "S" 0 1] in
  let st := stats (runTraceSim trace (startup 1 1 1)) in
  evictions st ≤ misses st ∧ hits st + misses st = 4.
Proof.
  destruct (counters_account_for_accesses
              [Matched "L" 0 1; Matched "M" 4 1; Matched "S" 0 1] (startup 1 1 1))
    as (H1 & H2 & _); try reflexivity.
  - vm_compute. discriminate.
  - split; [exact H1|exact H2].
Defined.

(** ** Counters that wrap *)

Lemma resident_hit (other : line_t) (l h m c : Z) :
  getData 0 (resident other l h m c)
  = resident other c (uint_incr h) m (ullong_incr c).
Proof. reflexivity. Qed.

(** [n + 1] hits in a row on the resident address. *)
Lemma resident_hits (other : line_t) (m : Z) (n : nat) :
  ∀ l h c, 0 ≤ c < 2 ^ 64 →
    accesses (replicate (S n) 0) (resident other l h m c)
    = resident other ((c + Z.of_nat n) mod 2 ^ 64)
        ((h + Z.of_nat (S n)) mod 2 ^ 32) m ((c + Z.of_nat (S n)) mod 2 ^ 64).
Proof.
  induction n as [|n IH]; intros l h c Hc.
  - change (accesses (replicate 1 0) ?g) with (getData 0 g).
    rewrite resident_hit. change (Z.of_nat 0) with 0. change (Z.of_nat 1) with 1.
    rewrite Z.add_0_r. by rewrite (Z.mod_small c) by lia.
  - change (accesses (replicate (S (S n)) 0) ?g)
      with (accesses (replicate (S n) 0) (getData 0 g)).
    rewrite resident_hit, IH.
    + unfold uint_incr, ullong_incr. rewrite !Zplus_mod_idemp_l.
      rewrite !Nat2Z.inj_succ.
      replace (c + 1 + Z.of_nat n) with (c + Z.succ (Z.of_nat n)) by lia.
      replace (h + 1 + Z.succ (Z.of_nat n))
        with (h + Z.succ (Z.succ (Z.of_nat n))) by lia.
      replace (c + 1 + Z.succ (Z.of_nat n))
        with (c + Z.succ (Z.succ (Z.of_nat n))) by lia.
      done.
    + unfold ullong_incr. apply Z.mod_pos_bound. lia.
Qed.

Lemma access_list_loads (n : nat) (addr size : Z) :
  access_list (replicate n (Matched "L" addr size)) = replicate n addr.
Proof. induction n as [|n IH]; [done|]. simpl. by rewrite IH. Qed.

(** One miss and then [n + 1] hits on address 0. *)
Lemma loads_of_one_address (n : nat) :
  runTraceSim (replicate (S (S n)) (Matched "L" 0 1)) (startup 1 1 1)
  = resident (mk_line 0 0 0) ((1 + Z.of_nat n) mod 2 ^ 64)
      (Z.of_nat (S n) mod 2 ^ 32) 1 ((1 + Z.of_nat (S n)) mod 2 ^ 64).
Proof.
  rewrite runTraceSim_accesses, access_list_loads.
  change (accesses (replicate (S (S n)) 0) (startup 1 1 1))
    with (accesses (replicate (S n) 0) (resident (mk_line 0 0 0) 0 0 1 1)).
  by rewrite resident_hits by lia.
Qed.

(** One miss and [2^32] hits on one address, for any [n] that is [2^32]. *)
Lemma hits_wrap_at (n : nat) :
  Z.of_nat n = 2 ^ 32 →
  let trace := replicate (S n) (Matched "L" 0 1) in
  let g := runTraceSim (replicate n (Matched "L" 0 1)) (startup 1 1 1) in
  let st := stats (runTraceSim trace (startup 1 1 1)) in
  Z.of_nat (length (access_list trace)) = 2 ^ 32 + 1
  ∧ hits st = 0 ∧ misses st = 1
  ∧ hits st + misses st ≠ Z.of_nat (length (access_list trace))
  ∧ hits (stats g) = 2 ^ 32 - 1
  ∧ hits (stats (getData 0 g)) = 0.
Proof.
  intros Hn trace g st.
  assert (Z.of_nat (length (access_list trace)) = 2 ^ 32 + 1) as Hlen.
  { unfold trace. rewrite access_list_loads, length_replicate, Nat2Z.inj_succ. lia. }
  assert (∃ k, n = S (S k) ∧ Z.of_nat k = 2 ^ 32 - 2) as (k & Hk1 & Hk2).
  { destruct n as [|[|k]]; [exfalso; change (Z.of_nat 0) with 0 in Hn; lia
                         |exfalso; change (Z.of_nat 1) with 1 in Hn; lia|].
    exists k. split; [done|]. rewrite !Nat2Z.inj_succ in Hn. lia. }
  assert (hits st = 0 ∧ misses st = 1) as [Hh Hm].
  { unfold st, trace. rewrite Hk1, (loads_of_one_address (S k)).
    unfold resident. cbn [stats hits misses]. split; [|done].
    rewrite !Nat2Z.inj_succ, Hk2.
    replace (Z.succ (Z.succ (2 ^ 32 - 2))) with (2 ^ 32) by lia.
    apply Z.mod_same. lia. }
  assert (hits (stats g) = 2 ^ 32 - 1) as Hg.
  { unfold g. rewrite Hk1, (loads_of_one_address k).
    unfold resident. cbn [stats hits].
    rewrite Nat2Z.inj_succ, Hk2. apply Z.mod_small. lia. }
  assert (hits (stats (getData 0 g)) = 0) as Hg'.
  { unfold g. rewrite Hk1, (loads_of_one_address k), resident_hit.
    unfold resident. cbn [stats hits].
    unfold uint_incr. rewrite Zplus_mod_idemp_l, Nat2Z.inj_succ, Hk2.
    replace (Z.succ (2 ^ 32 - 2) + 1) with (2 ^ 32) by lia. apply Z.mod_same. lia. }
  repeat split; try done. rewrite Hh, Hm, Hlen. lia.
Qed.

(** C10 as it is worded fails for a long trace: [hits] is an
    [unsigned int]. A trace of [2^32 + 1] loads of one address makes one
    miss and [2^32] hits; the last hit takes [hits] from [2^32 - 1] back to
    0, and [hits + misses] is 1 at the end. *)
Lemma hits_wrap_around :
  let trace := replicate (S (Z.to_nat (2 ^ 32))) (Matched "L" 0 1) in
  let g := runTraceSim (replicate (Z.to_nat (2 ^ 32)) (Matched "L" 0 1)) (startup 1 1 1) in
  let st := stats (runTraceSim trace (startup 1 1 1)) in
  Z.of_nat (length (access_list trace)) = 2 ^ 32 + 1
  ∧ hits st = 0 ∧ misses st = 1
  ∧ hits st + misses st ≠ Z.of_nat (length (access_list trace))
  ∧ hits (stats g) = 2 ^ 32 - 1
  ∧ hits (stats (getData 0 g)) = 0.
Proof.
  exact (hits_wrap_at (Z.to_nat (2 ^ 32)) (Z2Nat.id (2 ^ 32) (Z.pow_nonneg 2 32 Z.le_0_2))).
Qed.

Lemma resident_outcome (other : line_t) (l h m c : Z) :
  outcome 0 (resident other l h m c) = Hit.
Proof. reflexivity. Qed.

(** After one miss and [2^32 - 1] hits on one address, one more access. *)
Lemma full_counter_hit_at (n : nat) :
  Z.of_nat n = 2 ^ 32 →
  let g := runTraceSim (replicate n (Matched "L" 0 1)) (startup 1 1 1) in
  outcome 0 g = Hit
  ∧ hits (stats g) = UINT_MAX
  ∧ hits (stats (getData 0 g)) = 0
  ∧ hits (stats (getData 0 g)) ≠ hits (stats g) + 1.
Proof.
  intros Hn g.
  destruct (hits_wrap_at n Hn) as (_ & _ & _ & _ & Hg & Hg').
  fold g in Hg, Hg'.
  assert (outcome 0 g = Hit) as Ho.
  { assert (∃ k, n = S (S k)) as [k ->].
    { destruct n as [|[|k]]; [exfalso; change (Z.of_nat 0) with 0 in Hn; lia
                           |exfalso; change (Z.of_nat 1) with 1 in Hn; lia|].
      by exists k. }
    unfold g. rewrite loads_of_one_address. apply resident_outcome. }
  unfold UINT_MAX. repeat split; [done|done|done|]. rewrite Hg, Hg'. lia.
Qed.

(** C4 as it is worded fails where a counter is full: after a trace of
    [2^32] loads of one address, which makes one miss and [2^32 - 1] hits,
    [hits] holds [UINT_MAX]; one more access to the address is a hit and
    leaves [hits] at 0, not one higher. *)
Lemma hit_on_full_counter_adds_nothing :
  let g := runTraceSim (replicate (Z.to_nat (2 ^ 32)) (Matched "L" 0 1))
             (startup 1 1 1) in
  outcome 0 g = Hit
  ∧ hits (stats g) = UINT_MAX
  ∧ hits (stats (getData 0 g)) = 0
  ∧ hits (stats (getData 0 g)) ≠ hits (stats g) + 1.
Proof.
  exact (full_counter_hit_at (Z.to_nat (2 ^ 32))
           (Z2Nat.id (2 ^ 32) (Z.pow_nonneg 2 32 Z.le_0_2))).
Qed.

(** ** Tags and stamps *)

Lemma is_valid_true (l : line_t) : is_valid l = true ↔ valid l ≠ 0.
Proof. unfold is_valid. rewrite negb_true_iff, Z.eqb_neq. done. Qed.

(** On a hit the line found is valid and holds the tag; on a miss no valid
    line of the set holds it. *)
Lemma outcome_Hit (addr : Z) (g : globals) :
  outcome addr g = Hit →
  let l := (cache g !!! set_of g addr) !!! touched_line addr g in
  valid l ≠ 0 ∧ tag l = tag_of g addr.
Proof.
  unfold outcome, touched_line. destruct (find_line _ _ _) as [line|] eqn:Hf.
  - intros _. apply find_line_Some in Hf as (_ & Hv & Ht).
    by apply is_valid_true in Hv.
  - by destruct (is_valid _).
Qed.

Lemma outcome_miss (addr : Z) (g : globals) (j : nat) :
  outcome addr g ≠ Hit →
  (j < Z.to_nat (assoc (args g)))%nat →
  let l := (cache g !!! set_of g addr) !!! j in
  valid l ≠ 0 → tag l ≠ tag_of g addr.
Proof.
  unfold outcome. destruct (find_line _ _ _) as [line|] eqn:Hf; [done|].
  intros _ Hj l Hv. eapply find_line_None; eauto. by apply is_valid_true.
Qed.

(** The line that an access leaves at the position it writes. *)
Lemma getData_touched (addr : Z) (g : globals) :
  wf g →
  ∃ l, line_at (getData addr g) (set_of g addr) (touched_line addr g) = Some l
       ∧ valid l ≠ 0 ∧ tag l = tag_of g addr ∧ lru l = lru_count (stats g).
Proof.
  intros Hwf. rewrite getData_line_at by done. rewrite decide_True by done.
  eexists. split; [reflexivity|]. simpl. repeat split.
  destruct (outcome addr g) eqn:Ho; try done.
  by apply outcome_Hit in Ho as [? _].
Qed.

Lemma getData_untouched (addr : Z) (g : globals) (i j : nat) :
  wf g → (i, j) ≠ touched addr g →
  line_at (getData addr g) i j = line_at g i j.
Proof.
  intros Hwf Hne. rewrite getData_line_at by done.
  rewrite decide_False; [done|]. intros [Hi Hj]. apply Hne.
  unfold touched. by rewrite Hi, Hj.
Qed.

Lemma getData_nodup_tags (addr : Z) (g : globals) :
  wf g → nodup_tags g → nodup_tags (getData addr g).
Proof.
  intros Hwf Hnd i j1 j2 l1 l2 H1 H2 Hv1 Hv2 Ht.
  assert (∀ j l, j ≠ touched_line addr g →
                 line_at g (set_of g addr) j = Some l → valid l ≠ 0 →
                 tag l ≠ tag_of g addr) as Hother.
  { intros j l Hj Hl Hv Heq.
    assert (j < Z.to_nat (assoc (args g)))%nat as Hlt
      by (apply (line_at_is_Some g (set_of g addr) j Hwf); eauto).
    pose proof (line_at_total _ _ _ _ Hl) as Htot.
    destruct (outcome addr g) eqn:Ho.
    - apply outcome_Hit in Ho as [Hv' Ht'].
      destruct (proj2 (line_at_is_Some g (set_of g addr) (touched_line addr g) Hwf))
        as [l' Hl'].
      { split; [rewrite <- (wf_sets g Hwf); by apply set_of_lt
               |by apply touched_line_lt]. }
      rewrite (line_at_total _ _ _ _ Hl') in Hv', Ht'.
      apply Hj. eapply Hnd; eauto. congruence.
    - eapply (outcome_miss addr g j); try done; [by rewrite Ho|by rewrite Htot..].
    - eapply (outcome_miss addr g j); try done; [by rewrite Ho|by rewrite Htot..]. }
  destruct (getData_touched addr g Hwf) as (l & Hl & _ & Htl & _).
  destruct (decide ((i, j1) = touched addr g)) as [E1|N1];
    destruct (decide ((i, j2) = touched addr g)) as [E2|N2].
  - congruence.
  - injection E1 as -> ->.
    rewrite getData_untouched in H2 by done.
    rewrite Hl in H1. injection H1 as <-.
    exfalso. eapply (Hother j2 l2); try done; [|congruence].
    intros ->. by apply N2.
  - injection E2 as -> ->.
    rewrite getData_untouched in H1 by done.
    rewrite Hl in H2. injection H2 as <-.
    exfalso. eapply (Hother j1 l1); try done; [|congruence].
    intros ->. by apply N1.
  - rewrite getData_untouched in H1, H2 by done. eapply Hnd; eauto.
Qed.

Lemma startup_lines (s E b : Z) (i j : nat) (l : line_t) :
  line_at (startup s E b) i j = Some l → l = mk_line 0 0 0.
Proof.
  intros (s0 & Hs0 & Hl)%line_at_Some. simpl in Hs0.
  apply lookup_replicate in Hs0 as [-> _].
  by apply lookup_replicate in Hl as [-> _].
Qed.

Lemma startup_nodup_tags (s E b : Z) : nodup_tags (startup s E b).
Proof.
  intros i j1 j2 l1 l2 H1 _ Hv _ _. apply startup_lines in H1 as ->. done.
Qed.

Lemma accesses_nodup_tags (addrs : list Z) (g : globals) :
  wf g → nodup_tags g → nodup_tags (accesses addrs g).
Proof.
  revert g. induction addrs as [|a addrs IH]; intros g Hwf Hnd; [done|].
  simpl. apply IH; [by apply getData_wf|by apply getData_nodup_tags].
Qed.

Lemma last_touch_range (addrs : list Z) (g : globals) (k : Z) (p : nat * nat) (j : Z) :
  last_touch addrs g k p = Some j → k ≤ j < k + Z.of_nat (length addrs).
Proof.
  revert g k. induction addrs as [|a addrs IH]; intros g k; [done|].
  cbn [last_touch]. rewrite length_cons, Nat2Z.inj_succ.
  destruct (last_touch addrs (getData a g) (k + 1) p) as [j'|] eqn:Hl.
  - intros [= <-]. apply IH in Hl. lia.
  - case_decide; [|done]. intros [= <-]. lia.
Qed.

(** One call writes one position. *)
Lemma last_touch_inj (addrs : list Z) (g : globals) (k : Z) (p p' : nat * nat) (j : Z) :
  last_touch addrs g k p = Some j → last_touch addrs g k p' = Some j → p = p'.
Proof.
  revert g k. induction addrs as [|a addrs IH]; intros g k; [done|].
  cbn [last_touch].
  destruct (last_touch addrs (getData a g) (k + 1) p) as [j1|] eqn:H1;
    destruct (last_touch addrs (getData a g) (k + 1) p') as [j2|] eqn:H2.
  - intros [= <-] [= <-]. by eapply IH.
  - case_decide; [|done]. intros [= <-] [= <-].
    apply last_touch_range in H1. lia.
  - case_decide; [|done]. intros [= <-] [= <-].
    apply last_touch_range in H2. lia.
  - repeat case_decide; try done. congruence.
Qed.

(** After the calls for [addrs], a line either carries the number of the
    last call that wrote its position, or is as it was before them. The
    numbers are those of the clock, which must not pass its last value
    before the last call. *)
Lemma stamps_are_last_touch (addrs : list Z) :
  ∀ (g : globals) (i j : nat) (l : line_t),
    wf g →
    lru_count (stats g) + Z.of_nat (length addrs) ≤ ULLONG_MAX + 1 →
    line_at (accesses addrs g) i j = Some l →
    match last_touch addrs g (lru_count (stats g)) (i, j) with
    | Some k => lru l = k ∧ valid l ≠ 0
    | None => line_at g i j = Some l
    end.
Proof.
  induction addrs as [|a addrs IH]; intros g i j l Hwf Hlen Hl; [done|].
  rewrite length_cons, Nat2Z.inj_succ in Hlen.
  change (accesses (a :: addrs) g) with (accesses addrs (getData a g)) in Hl.
  cbn [last_touch].
  assert (match last_touch addrs (getData a g) (lru_count (stats g) + 1) (i, j) with
          | Some k => lru l = k ∧ valid l ≠ 0
          | None => line_at (getData a g) i j = Some l
          end) as Hrest.
  { destruct addrs as [|a' addrs]; [done|].
    rewrite length_cons, Nat2Z.inj_succ in Hlen.
    assert (lru_count (stats (getData a g)) = lru_count (stats g) + 1) as Hclk.
    { rewrite getData_clock. unfold ullong_incr. apply Z.mod_small.
      pose proof (wf_clock g Hwf). unfold ULLONG_MAX in *. lia. }
    rewrite <- Hclk. apply IH; [by apply getData_wf| |done].
    rewrite Hclk, length_cons, Nat2Z.inj_succ. lia. }
  destruct (last_touch addrs (getData a g) (lru_count (stats g) + 1) (i, j));
    [done|].
  case_decide as Hp.
  - injection Hp as -> ->.
    destruct (getData_touched a g Hwf) as (l' & Hl' & Hv & _ & Hs).
    rewrite Hl' in Hrest. by injection Hrest as <-.
  - by rewrite getData_untouched in Hrest.
Qed.

(** C9, as the code has it. An access keeps the tags of the valid lines of a
    set distinct. It stamps the line it writes with the clock and then adds
    one to the clock, which grows unless it was at [2^64 - 1]. So after at
    most [2^64] accesses from the start every valid line carries the number
    of the last access that wrote it, and no two valid lines of the cache
    carry the same stamp. *)
Theorem access_keeps_tags_and_stamp_order :
  (∀ g addr, wf g → nodup_tags g → nodup_tags (getData addr g))
  ∧ (∀ g addr, wf g →
       (∃ l, line_at (getData addr g) (touched addr g).1 (touched addr g).2 = Some l
             ∧ valid l ≠ 0 ∧ lru l = lru_count (stats g))
       ∧ lru_count (stats (getData addr g)) = ullong_incr (lru_count (stats g))
       ∧ (lru_count (stats g) < ULLONG_MAX →
          lru_count (stats (getData addr g)) = lru_count (stats g) + 1))
  ∧ (∀ s E b addrs,
       geometry s E b →
       Z.of_nat (length addrs) ≤ ULLONG_MAX + 1 →
       let g := accesses addrs (startup s E b) in
       nodup_tags g
       ∧ (∀ i j l, line_at g i j = Some l → valid l ≠ 0 →
                   last_touch addrs (startup s E b) 0 (i, j) = Some (lru l))
       ∧ (∀ i j l i' j' l',
            line_at g i j = Some l → line_at g i' j' = Some l' →
            valid l ≠ 0 → valid l' ≠ 0 → lru l = lru l' →
            (i, j) = (i', j'))).
Proof.
  split; [|split].
  - intros g addr. apply getData_nodup_tags.
  - intros g addr Hwf. split; [|split].
    + destruct (getData_touched addr g Hwf) as (l & Hl & Hv & _ & Hs). eauto.
    + apply getData_clock.
    + intros Hlt. rewrite getData_clock. unfold ullong_incr. apply Z.mod_small.
      pose proof (wf_clock g Hwf). unfold ULLONG_MAX in *. lia.
  - intros s E b addrs Hgeo Hlen g.
    pose proof (startup_wf s E b Hgeo) as Hwf.
    assert (∀ i j l, line_at g i j = Some l → valid l ≠ 0 →
                     last_touch addrs (startup s E b) 0 (i, j) = Some (lru l))
      as Hlast.
    { intros i j l Hl Hv.
      pose proof (stamps_are_last_touch addrs (startup s E b) i j l Hwf) as H.
      change (lru_count (stats (startup s E b))) with 0 in H.
      specialize (H ltac:(lia) Hl).
      destruct (last_touch addrs (startup s E b) 0 (i, j)) as [k|].
      - by destruct H as [-> _].
      - apply startup_lines in H. by subst l. }
    split; [|split; [done|]].
    + apply accesses_nodup_tags; [done|apply startup_nodup_tags].
    + intros i j l i' j' l' Hl Hl' Hv Hv' Heq.
      eapply last_touch_inj; [by apply Hlast|].
      rewrite Heq. by apply Hlast.
Qed.

Lemma access_keeps_tags_and_stamp_order_witness :
  nodup_tags (getData 4 (startup 1 2 1))
  ∧ lru_count (stats (getData 4 (startup 1 2 1))) = 1
  ∧ nodup_tags (accesses [0; 4; 2] (startup 1 2 1)).
Proof.
  destruct access_keeps_tags_and_stamp_order as (Htags & Hstamp & Hrun).
  split; [|split].
  - apply Htags; [|apply startup_nodup_tags].
    apply startup_wf. solve_geometry.
  - destruct (Hstamp (startup 1 2 1) 4) as (_ & _ & H).
    + apply startup_wf. solve_geometry.
    + apply H. reflexivity.
  - destruct (Hrun 1 2 1 [0; 4; 2]) as (H & _).
    + solve_geometry.
    + vm_compute. discriminate.
    + exact H.
Defined.

(** Two accesses, then [n + 1] hits, for any [n] that is [2^64 - 2]: the
    line of set 0 ends with stamp 0, the stamp of the line of set 1. *)
Lemma stamps_repeat_at (n : nat) :
  Z.of_nat n = 2 ^ 64 - 2 →
  let addrs := 2 :: 0 :: replicate (S n) 0 in
  let g := accesses addrs (startup 1 1 1) in
  Z.of_nat (length addrs) = 2 ^ 64 + 1
  ∧ line_at g 0 0 = Some (mk_line 1 0 0)
  ∧ line_at g 1 0 = Some (mk_line 1 0 0)
  ∧ last_touch addrs (startup 1 1 1) 0 (1%nat, 0%nat) = Some 0.
Proof.
  intros Hn addrs g.
  assert (Z.of_nat (length addrs) = 2 ^ 64 + 1) as Hlen.
  { unfold addrs. rewrite !length_cons, length_replicate, !Nat2Z.inj_succ. lia. }
  assert (g = resident (mk_line 1 0 0) 0 (Z.of_nat (S n) mod 2 ^ 32) 2 1) as Hg.
  { unfold g, addrs.
    change (accesses (2 :: 0 :: replicate (S n) 0) (startup 1 1 1))
      with (accesses (replicate (S n) 0) (resident (mk_line 1 0 0) 1 0 2 2)).
    rewrite resident_hits by lia. rewrite Nat2Z.inj_succ, Hn.
    replace (2 + (2 ^ 64 - 2)) with (2 ^ 64) by lia.
    replace (2 + Z.succ (2 ^ 64 - 2)) with (1 + 1 * 2 ^ 64) by lia.
    rewrite Z.mod_same by lia. rewrite Z.mod_add by lia.
    by rewrite Z.add_0_l. }
  split; [done|]. rewrite Hg. split; [done|]. split; [done|].
  (* no access after the first writes the line of set 1 *)
  assert (∀ m l h c k,
            last_touch (replicate m 0) (resident (mk_line 1 0 0) l h 2 c) k
              (1%nat, 0%nat) = None) as Hnone.
  { induction m as [|m IH]; intros l h c k; [done|].
    cbn [replicate last_touch]. rewrite resident_hit, IH. done. }
  unfold addrs. cbn [last_touch].
  change (getData 0 (getData 2 (startup 1 1 1)))
    with (resident (mk_line 1 0 0) 1 0 2 2).
  rewrite Hnone. done.
Qed.

(** C9 as it is worded fails when the clock wraps. After an access to
    address 2 and [2^64] accesses to address 0, which is [2^64 + 1] calls,
    the line of set 0, written by the last call, and the line of set 1,
    written by the first, are both valid and both carry stamp 0. *)
Lemma stamps_repeat_after_clock_wraps :
  let addrs := 2 :: 0 :: replicate (S (Z.to_nat (2 ^ 64 - 2))) 0 in
  let g := accesses addrs (startup 1 1 1) in
  Z.of_nat (length addrs) = 2 ^ 64 + 1
  ∧ line_at g 0 0 = Some (mk_line 1 0 0)
  ∧ line_at g 1 0 = Some (mk_line 1 0 0)
  ∧ last_touch addrs (startup 1 1 1) 0 (1%nat, 0%nat) = Some 0.
Proof.
  exact (stamps_repeat_at (Z.to_nat (2 ^ 64 - 2))
           (Z2Nat.id (2 ^ 64 - 2) ltac:(lia))).
Qed.

(** ** The line written by the first access *)


(** In a single set of at least two lines the second tag of a run always
    takes the line of the first, while line 1 is as [init] left it. *)
Lemma second_tag_evicts_first_line (E b a1 a2 : Z) :
  2 ≤ E →
  Z.shiftr a1 b ≠ Z.shiftr a2 b →
  let g1 := getData a1 (startup 0 E b) in
  outcome a2 g1 = MissWithEvict
  ∧ touched_line a2 g1 = 0%nat
  ∧ line_at g1 0 1 = Some (mk_line 0 0 0).
Proof.
  intros HE Hne g1.
  assert (∃ m, Z.to_nat E = S (S m)) as [m Hm] by (exists (Z.to_nat E - 2)%nat; lia).
  assert (g1 = one_set E b [mk_line 1 (Z.shiftr a1 b) 0] (S m)
                 (mk_stats 0 (uint_incr 0) 0 (ullong_incr 0))) as ->.
  { unfold g1. rewrite startup_one_set, Hm.
    by rewrite (one_set_fill E b [] (S m)); [|simpl; lia|constructor]. }
  destruct (one_set_evict_first E b (mk_line 1 (Z.shiftr a1 b) 0) [] (S m)
              (mk_stats 0 (uint_incr 0) 0 (ullong_incr 0)) a2)
    as (Ho & Ht & _); [lia|simpl; lia| |constructor|by right|].
  { unfold written, ULLONG_MAX; simpl. repeat split; try lia. }
  split; [done|]. split; [done|]. reflexivity.
Qed.

(** C3 at an input where the code departs from it. With [-s 1 -E 2 -b 1],
    after the access to address 0, the first of the run, line 0 of set 0 is
    valid with stamp 0 and line 1 is as [init] left it, with stamp 0 too.
    The access to address 4 (set 0, tag 1) misses; the scan keeps line 0,
    the first line with the least stamp, and evicts it, although line 1 is
    not valid. *)
Theorem first_line_evicted_before_empty_line :
  let g1 := getData 0 (startup 1 2 1) in
  cache g1 !!! 0%nat = [mk_line 1 0 0; mk_line 0 0 0]
  ∧ set_of g1 4 = 0%nat ∧ tag_of g1 4 = 1
  ∧ outcome 4 g1 = MissWithEvict
  ∧ victim (cache g1 !!! 0%nat) 2 = 0%nat
  ∧ cache (getData 4 g1) !!! 0%nat = [mk_line 1 1 1; mk_line 0 0 0]
  ∧ stats (getData 4 g1) = mk_stats 0 2 1 2.
Proof. vm_compute. repeat split. Qed.

(** C7 at an input where the code departs from it. With [-s 1 -E 2 -b 1]
    the addresses 0, 4, 2, 6 fall on the four pairs of a set and a tag, two
    for each set. After the four accesses one eviction is counted and line
    1 of set 0 is still not valid: the second access has replaced the line
    of the first. *)
Theorem capacity_fill_evicts :
  let g0 := startup 1 2 1 in
  let addrs := [0; 4; 2; 6] in
  let g := accesses addrs g0 in
  map (λ a, (set_of g0 a, tag_of g0 a)) addrs
  = [(0%nat, 0); (0%nat, 1); (1%nat, 0); (1%nat, 1)]
  ∧ evictions (stats g) = 1
  ∧ cache g = [[mk_line 1 1 1; mk_line 0 0 0]; [mk_line 1 0 2; mk_line 1 1 3]].
Proof. vm_compute. repeat split. Qed.


(** * Further properties *)

(** ** init and the scan of evict *)

Lemma init_lines (g : globals) (i j : nat) (l : line_t) :
  line_at (init g) i j = Some l → l = mk_line 0 0 0.
Proof.
  intros (s0 & Hs0 & Hl)%line_at_Some. simpl in Hs0.
  apply lookup_replicate in Hs0 as [-> _].
  by apply lookup_replicate in Hl as [-> _].
Qed.

Lemma init_wf (g : globals) :
  geometry (idx_bits (args g)) (assoc (args g)) (block_bits (args g)) →
  num_sets g = 2 ^ idx_bits (args g) →
  0 ≤ lru_count (stats g) ≤ ULLONG_MAX →
  wf (init g).
Proof.
  intros Hgeo Hn Hc. constructor; simpl; try done.
  - by rewrite length_replicate.
  - intros i s0 [-> _]%lookup_replicate. by rewrite length_replicate.
  - intros i s0 j l [-> _]%lookup_replicate [-> _]%lookup_replicate. simpl.
    unfold ULLONG_MAX. lia.
Qed.

(** An access whose set holds no valid line is a miss without eviction. *)
Lemma empty_set_outcome (addr : Z) (g : globals) :
  wf g →
  (∀ j l, line_at g (set_of g addr) j = Some l → valid l = 0) →
  outcome addr g = MissNoEvict.
Proof.
  intros Hwf Hall.
  assert (∀ j, (j < Z.to_nat (assoc (args g)))%nat →
               is_valid ((cache g !!! set_of g addr) !!! j) = false) as Hline.
  { intros j Hj.
    destruct (proj2 (line_at_is_Some g (set_of g addr) j Hwf)) as [l Hl].
    { split; [|done]. rewrite <- (wf_sets g Hwf). by apply set_of_lt. }
    rewrite (line_at_total _ _ _ _ Hl). unfold is_valid.
    by rewrite (Hall _ _ Hl). }
  pose proof (touched_line_lt addr g Hwf) as Hlt. revert Hlt.
  unfold outcome, touched_line.
  destruct (find_line _ _ _) as [line|] eqn:Hf.
  - apply find_line_Some in Hf as (Hl & Hv & _). by rewrite Hline in Hv.
  - intros Hlt. by rewrite Hline.
Qed.

(** X1. Whatever the cache held before, [init] leaves [num_sets] sets of
    [assoc] lines that are all invalid with tag 0 and stamp 0, keeps the
    statistics and the arguments, and gives a well-formed state in which the
    first access to any address is a miss without eviction. *)
Theorem init_gives_empty_cache (g : globals) :
  geometry (idx_bits (args g)) (assoc (args g)) (block_bits (args g)) →
  num_sets g = 2 ^ idx_bits (args g) →
  0 ≤ lru_count (stats g) ≤ ULLONG_MAX →
  wf (init g)
  ∧ stats (init g) = stats g ∧ args (init g) = args g
  ∧ (∀ i j, line_at (init g) i j
            = if decide ((i < Z.to_nat (num_sets g))%nat
                         ∧ (j < Z.to_nat (assoc (args g)))%nat)
              then Some (mk_line 0 0 0) else None)
  ∧ (∀ addr, outcome addr (init g) = MissNoEvict).
Proof.
  intros Hgeo Hn Hc. pose proof (init_wf g Hgeo Hn Hc) as Hwf.
  split; [done|]. split; [done|]. split; [done|]. split.
  - intros i j. pose proof (line_at_is_Some (init g) i j Hwf) as Hsome.
    change (num_sets (init g)) with (num_sets g) in Hsome.
    change (args (init g)) with (args g) in Hsome.
    case_decide as Hin.
    + apply Hsome in Hin as [l Hl]. rewrite Hl. f_equal. by eapply init_lines.
    + destruct (line_at (init g) i j) eqn:Hl; [|done].
      exfalso. apply Hin, Hsome. eauto.
  - intros addr. apply empty_set_outcome; [done|].
    intros j l Hl. by apply init_lines in Hl as ->.
Qed.

Lemma init_gives_empty_cache_witness :
  let g := accesses [0; 4; 2] (startup 1 2 1) in
  wf (init g) ∧ outcome 4 (init g) = MissNoEvict.
Proof.
  destruct (init_gives_empty_cache (accesses [0; 4; 2] (startup 1 2 1)))
    as (Hwf & _ & _ & _ & Ho).
  - vm_compute. repeat split; discriminate.
  - reflexivity.
  - vm_compute. split; discriminate.
  - split; [exact Hwf|apply Ho].
Defined.

(** X2. The scan of [evict] over [n] lines leaves the index of a line of the
    set with the least stamp, the first such line; over no line ([n] not
    positive) it leaves index 0. *)
Theorem victim_is_first_least (s : list line_t) (n : Z) :
  (n ≤ 0 → victim s n = 0%nat)
  ∧ (1 ≤ n →
     (∀ j, (j < Z.to_nat n)%nat → lru (s !!! j) ≤ ULONG_MAX) →
     (victim s n < Z.to_nat n)%nat
     ∧ (∀ j, (j < Z.to_nat n)%nat → lru (s !!! victim s n) ≤ lru (s !!! j))
     ∧ (∀ j, (j < victim s n)%nat → lru (s !!! victim s n) < lru (s !!! j))).
Proof.
  split.
  - intros Hn. unfold victim, evict_scan.
    by replace (Z.to_nat n) with 0%nat by lia.
  - apply victim_min.
Qed.

Lemma victim_is_first_least_witness :
  let s := [mk_line 1 7 5; mk_line 1 8 2; mk_line 1 9 2] in
  (victim s 3 < 3)%nat ∧ lru (s !!! victim s 3) ≤ lru (s !!! 2%nat).
Proof.
  destruct (victim_is_first_least [mk_line 1 7 5; mk_line 1 8 2; mk_line 1 9 2] 3)
    as [_ H].
  destruct H as (Hlt & Hmin & _); [lia| |].
  - intros j Hj. destruct j as [|[|[|j]]]; [vm_compute; discriminate..|].
    exfalso. change (Z.to_nat 3) with 3%nat in Hj. lia.
  - split; [exact Hlt|]. apply Hmin. change (Z.to_nat 3) with 3%nat. lia.
Defined.

(** ** Where an access goes *)

(** X3. In a well-formed state the set index that [getData] computes is
    inside the cache and the line that the access writes, found or victim,
    is inside that set: no access reads or writes outside the arrays. *)
Theorem access_in_bounds (addr : Z) (g : globals) :
  wf g →
  (set_of g addr < length (cache g))%nat
  ∧ ∃ s l, cache g !! set_of g addr = Some s
           ∧ length s = Z.to_nat (assoc (args g))
           ∧ (touched_line addr g < length s)%nat
           ∧ s !! touched_line addr g = Some l.
Proof.
  intros Hwf. pose proof (set_of_lt g addr Hwf) as Hlt. split; [done|].
  destruct (lookup_lt_is_Some_2 _ _ Hlt) as [s Hs].
  pose proof (wf_lines g Hwf _ _ Hs) as Hlen.
  pose proof (touched_line_lt addr g Hwf) as Htl.
  destruct (lookup_lt_is_Some_2 s (touched_line addr g)) as [l Hl]; [lia|].
  exists s, l. repeat split; try done. lia.
Qed.

Lemma access_in_bounds_witness :
  (set_of (startup 2 3 4) 1000 < length (cache (startup 2 3 4)))%nat.
Proof.
  destruct (access_in_bounds 1000 (startup 2 3 4)) as [H _].
  - apply startup_wf. solve_geometry.
  - exact H.
Defined.

Lemma runTraceSim_wf (trace : list fscanf_t) (g : globals) :
  wf g → wf (runTraceSim trace g).
Proof. rewrite runTraceSim_accesses. apply accesses_wf. Qed.

Lemma accesses_args (addrs : list Z) (g : globals) :
  args (accesses addrs g) = args g ∧ num_sets (accesses addrs g) = num_sets g
  ∧ length (cache (accesses addrs g)) = length (cache g).
Proof.
  revert g. induction addrs as [|a addrs IH]; intros g; [done|].
  change (accesses (a :: addrs) g) with (accesses addrs (getData a g)).
  destruct (IH (getData a g)) as (-> & -> & ->).
  by rewrite getData_args, getData_num_sets, getData_length.
Qed.

(** X4. A replay never changes the geometry: the arguments, the number of
    sets and the number of lines of each set are after it what they were
    before, and a well-formed state stays well formed, whatever the trace. *)
Theorem replay_keeps_dimensions (trace : list fscanf_t) (g : globals) :
  args (runTraceSim trace g) = args g
  ∧ num_sets (runTraceSim trace g) = num_sets g
  ∧ length (cache (runTraceSim trace g)) = length (cache g)
  ∧ (wf g →
     wf (runTraceSim trace g)
     ∧ ∀ i j, is_Some (line_at (runTraceSim trace g) i j) ↔ is_Some (line_at g i j)).
Proof.
  rewrite runTraceSim_accesses.
  destruct (accesses_args (access_list trace) g) as (Ha & Hn & Hl).
  split; [done|]. split; [done|]. split; [done|].
  intros Hwf. pose proof (accesses_wf (access_list trace) g Hwf) as Hwf'.
  split; [done|]. intros i j.
  rewrite (line_at_is_Some _ i j Hwf'), (line_at_is_Some g i j Hwf).
  by rewrite Ha, Hn.
Qed.

Lemma replay_keeps_dimensions_witness :
  wf (runTraceSim [Matched "L" 16 1; Matched "M" 32 1; Stopped 1] (startup 4 1 4)).
Proof.
  destruct (replay_keeps_dimensions
              [Matched "L" 16 1; Matched "M" 32 1; Stopped 1] (startup 4 1 4))
    as (_ & _ & _ & H).
  destruct H as [Hwf _]; [apply startup_wf; solve_geometry|exact Hwf].
Defined.

(** X5. An access changes one line and no other: every other line of the
    cache is what it was. On a hit the line keeps its flag and its tag and
    takes the clock as its stamp; on a miss the line becomes valid with the
    tag of the address and the clock as its stamp. *)
Theorem access_writes_one_line (addr : Z) (g : globals) :
  wf g →
  (∀ i j, (i, j) ≠ touched addr g →
          line_at (getData addr g) i j = line_at g i j)
  ∧ (outcome addr g = Hit →
     ∃ l, line_at g (set_of g addr) (touched_line addr g) = Some l
          ∧ line_at (getData addr g) (set_of g addr) (touched_line addr g)
            = Some (mk_line (valid l) (tag l) (lru_count (stats g))))
  ∧ (outcome addr g ≠ Hit →
     line_at (getData addr g) (set_of g addr) (touched_line addr g)
     = Some (mk_line 1 (tag_of g addr) (lru_count (stats g)))).
Proof.
  intros Hwf. split; [|split].
  - intros i j Hne. by apply getData_untouched.
  - intros Ho.
    destruct (access_in_bounds addr g Hwf) as (_ & s & l & Hs & _ & _ & Hl).
    assert (line_at g (set_of g addr) (touched_line addr g) = Some l) as Hat
      by (apply line_at_Some; eauto).
    exists l. split; [done|].
    rewrite getData_line_at by done. rewrite decide_True by done. rewrite Ho.
    pose proof (outcome_Hit addr g Ho) as [_ Ht]. simpl in Ht.
    rewrite (line_at_total _ _ _ _ Hat) in Ht |- *. by rewrite Ht.
  - intros Ho. rewrite getData_line_at by done. rewrite decide_True by done.
    by destruct (outcome addr g).
Qed.

Lemma access_writes_one_line_witness :
  line_at (getData 4 (getData 2 (startup 1 2 1))) 1 0
  = line_at (getData 2 (startup 1 2 1)) 1 0.
Proof.
  destruct (access_writes_one_line 4 (getData 2 (startup 1 2 1))) as [H _].
  - apply getData_wf, startup_wf. solve_geometry.
  - apply H. vm_compute. discriminate.
Defined.

(** Two addresses with the same set index and the same tag are the same to
    the cache. *)
Lemma same_line_same_access (g : globals) (a a' : Z) :
  set_of g a = set_of g a' → tag_of g a = tag_of g a' →
  getData a g = getData a' g ∧ outcome a g = outcome a' g
  ∧ touched_line a g = touched_line a' g.
Proof.
  intros Hs Ht. unfold getData, outcome, touched_line. by rewrite Hs, Ht.
Qed.

Lemma block_split (g : globals) (a : Z) :
  0 ≤ idx_bits (args g) → num_sets g = 2 ^ idx_bits (args g) →
  block_of g a = tag_of g a * 2 ^ idx_bits (args g) + Z.of_nat (set_of g a).
Proof.
  intros Hs Hn. rewrite (set_of_mod g a Hs Hn), Hn.
  unfold tag_of, block_of.
  rewrite <- Z.shiftr_shiftr by done.
  rewrite (Z.shiftr_div_pow2 _ (idx_bits (args g))) by done.
  pose proof (Z.div_mod (Z.shiftr a (block_bits (args g))) (2 ^ idx_bits (args g))
                ltac:(lia)).
  lia.
Qed.

(** X6. The tag and the set index together are the block of the address,
    [addr >> b]: the block is [tag * 2^s + set_index], so two addresses have
    the same set index and the same tag exactly when they lie in the same
    block. *)
Theorem same_line_iff_same_block (g : globals) (a a' : Z) :
  0 ≤ idx_bits (args g) →
  num_sets g = 2 ^ idx_bits (args g) →
  block_of g a = tag_of g a * 2 ^ idx_bits (args g) + Z.of_nat (set_of g a)
  ∧ (set_of g a = set_of g a' ∧ tag_of g a = tag_of g a'
     ↔ block_of g a = block_of g a').
Proof.
  intros Hs Hn. split; [by apply block_split|]. split.
  - intros [Hset Htag]. rewrite !block_split by done. by rewrite Hset, Htag.
  - intros Hb. split.
    + apply Nat2Z.inj. rewrite !set_of_mod by done.
      unfold block_of in Hb. by rewrite Hb.
    + unfold tag_of. rewrite <- !Z.shiftr_shiftr by done.
      unfold block_of in Hb. by rewrite Hb.
Qed.

Lemma same_line_iff_same_block_witness :
  set_of (startup 2 1 4) 1000 = set_of (startup 2 1 4) 1007
  ∧ tag_of (startup 2 1 4) 1000 = tag_of (startup 2 1 4) 1007.
Proof.
  destruct (same_line_iff_same_block (startup 2 1 4) 1000 1007) as [_ [_ H]];
    [simpl; lia|reflexivity|].
  apply H. reflexivity.
Defined.

Lemma set_of_args (g h : globals) (a : Z) :
  args h = args g → num_sets h = num_sets g →
  set_of h a = set_of g a ∧ tag_of h a = tag_of g a ∧ block_of h a = block_of g a.
Proof. intros Ha Hn. unfold set_of, tag_of, block_of. by rewrite Ha, Hn. Qed.

(** Hits on one line, one after another. *)
Lemma hits_in_a_row (g : globals) (a : Z) (bs : list Z) :
  wf g →
  outcome a g = Hit →
  Forall (λ b, set_of g b = set_of g a ∧ tag_of g b = tag_of g a) bs →
  (∀ pre b post, bs = pre ++ b :: post → outcome b (accesses pre g) = Hit)
  ∧ outcome a (accesses bs g) = Hit
  ∧ misses (stats (accesses bs g)) = misses (stats g)
  ∧ evictions (stats (accesses bs g)) = evictions (stats g).
Proof.
  revert g. induction bs as [|b bs IH]; intros g Hwf Ho Hbs.
  - split; [|done]. intros pre b post Heq. by destruct pre.
  - apply Forall_cons in Hbs as [[Hs Ht] Hbs].
    destruct (same_line_same_access g b a Hs Ht) as (Hg & Hob & _).
    rewrite Ho in Hob.
    change (accesses (b :: bs) g) with (accesses bs (getData b g)).
    destruct (set_of_args g (getData b g) a) as (Hsa & Hta & _);
      [apply getData_args|apply getData_num_sets|].
    destruct (IH (getData b g)) as (Hpre & Hlast & Hm & He).
    + by apply getData_wf.
    + rewrite Hg. by apply getData_then_hit.
    + eapply Forall_impl; [exact Hbs|]. simpl. intros c [Hc1 Hc2].
      destruct (set_of_args g (getData b g) c) as (-> & -> & _);
        [apply getData_args|apply getData_num_sets|].
      by rewrite Hsa, Hta.
    + split; [|split; [done|]].
      * intros pre c post Heq. destruct pre as [|c' pre].
        -- injection Heq as <- _. done.
        -- injection Heq as <- Heq.
           change (accesses (b :: pre) g) with (accesses pre (getData b g)).
           by eapply Hpre.
      * rewrite Hm, He, (getData_stats b g), Hob. done.
Qed.

(** X7. After an access to an address, accesses to addresses of the same
    block, as many as there are and with no other access between them, are
    all hits: they change neither [misses] nor [evictions]. *)
Theorem same_block_accesses_hit (g : globals) (a : Z) (bs : list Z) :
  wf g →
  Forall (λ b, block_of g b = block_of g a) bs →
  let g1 := getData a g in
  (∀ pre b post, bs = pre ++ b :: post → outcome b (accesses pre g1) = Hit)
  ∧ misses (stats (accesses bs g1)) = misses (stats g1)
  ∧ evictions (stats (accesses bs g1)) = evictions (stats g1).
Proof.
  intros Hwf Hbs g1.
  destruct (hits_in_a_row g1 a bs) as (Hpre & _ & Hm & He).
  - by apply getData_wf.
  - by apply getData_then_hit.
  - eapply Forall_impl; [exact Hbs|]. simpl. intros b Hb.
    destruct (set_of_args g g1 b) as (-> & -> & _);
      [apply getData_args|apply getData_num_sets|].
    destruct (set_of_args g g1 a) as (-> & -> & _);
      [apply getData_args|apply getData_num_sets|].
    apply same_line_iff_same_block; [by apply wf_idx|apply Hwf|done].
  - done.
Qed.

Lemma same_block_accesses_hit_witness :
  outcome 1007 (getData 1000 (startup 2 1 4)) = Hit.
Proof.
  destruct (same_block_accesses_hit (startup 2 1 4) 1000 [1007]) as (H & _).
  - apply startup_wf. solve_geometry.
  - repeat constructor.
  - exact (H [] 1007 [] eq_refl).
Defined.

(** X8. An access leaves the other sets alone: an address of another set
    meets after it the lines it would have met before, has the same
    outcome and writes the same line. *)
Theorem other_set_undisturbed (g : globals) (a b : Z) :
  wf g →
  set_of g a ≠ set_of g b →
  (∀ j, line_at (getData a g) (set_of g b) j = line_at g (set_of g b) j)
  ∧ outcome b (getData a g) = outcome b g
  ∧ touched b (getData a g) = touched b g.
Proof.
  intros Hwf Hne.
  destruct (set_of_args g (getData a g) b) as (Hs & Ht & _);
    [apply getData_args|apply getData_num_sets|].
  assert (cache (getData a g) !!! set_of g b = cache g !!! set_of g b) as Hc.
  { rewrite getData_cache. by apply list_lookup_total_insert_ne. }
  split; [|split].
  - intros j. apply getData_untouched; [done|]. unfold touched. congruence.
  - unfold outcome. by rewrite Hs, Ht, Hc, getData_args.
  - unfold touched, touched_line. by rewrite Hs, Ht, Hc, getData_args.
Qed.

Lemma other_set_undisturbed_witness :
  outcome 2 (getData 4 (getData 2 (startup 1 2 1)))
  = outcome 2 (getData 2 (startup 1 2 1)).
Proof.
  destruct (other_set_undisturbed (getData 2 (startup 1 2 1)) 4 2) as (_ & H & _).
  - apply getData_wf, startup_wf. solve_geometry.
  - vm_compute. discriminate.
  - exact H.
Defined.

(** ** What the lines hold *)

Lemma getData_keeps_valid (a : Z) (g : globals) (i j : nat) (l : line_t) :
  wf g → line_at g i j = Some l → valid l ≠ 0 →
  ∃ l', line_at (getData a g) i j = Some l' ∧ valid l' ≠ 0.
Proof.
  intros Hwf Hl Hv.
  destruct (decide ((i, j) = touched a g)) as [Heq|Hne].
  - injection Heq as -> ->.
    destruct (getData_touched a g Hwf) as (l' & Hl' & Hv' & _). eauto.
  - rewrite getData_untouched by done. eauto.
Qed.

Lemma getData_line_shape (a : Z) (g : globals) :
  wf g →
  (∀ i j l, line_at g i j = Some l → line_shape l) →
  ∀ i j l, line_at (getData a g) i j = Some l → line_shape l.
Proof.
  intros Hwf Hall i j l. rewrite getData_line_at by done.
  case_decide as Hp; [|apply Hall].
  destruct Hp as [-> ->]. intros [= <-]. right. simpl.
  destruct (outcome a g) eqn:Ho; try done.
  destruct (access_in_bounds a g Hwf) as (_ & s & l & Hs & _ & _ & Hl).
  assert (line_at g (set_of g a) (touched_line a g) = Some l) as Hat
    by (apply line_at_Some; eauto).
  rewrite (line_at_total _ _ _ _ Hat).
  destruct (Hall _ _ _ Hat) as [->|Hv]; [|done].
  apply outcome_Hit in Ho as [Hv _]. by rewrite (line_at_total _ _ _ _ Hat) in Hv.
Qed.

(** X9. No access takes a line out of the cache: a line that is valid stays
    valid through every replay. And in a replay from the cache that [init]
    built every line is either as [init] left it, with flag, tag and stamp
    0, or has flag 1. *)
Theorem lines_stay_valid (trace : list fscanf_t) :
  (∀ g i j l,
     wf g → line_at g i j = Some l → valid l ≠ 0 →
     ∃ l', line_at (runTraceSim trace g) i j = Some l' ∧ valid l' ≠ 0)
  ∧ (∀ s E b i j l,
       geometry s E b →
       line_at (runTraceSim trace (startup s E b)) i j = Some l →
       line_shape l).
Proof.
  split.
  - intros g i j l. rewrite runTraceSim_accesses.
    generalize (access_list trace) as addrs. intros addrs. revert g l.
    induction addrs as [|a addrs IH]; intros g l Hwf Hl Hv; [by eauto|].
    change (accesses (a :: addrs) g) with (accesses addrs (getData a g)).
    destruct (getData_keeps_valid a g i j l Hwf Hl Hv) as (l' & Hl' & Hv').
    eapply IH; [by apply getData_wf|done..].
  - intros s E b i j l Hgeo. rewrite runTraceSim_accesses.
    pose proof (startup_wf s E b Hgeo) as Hwf.
    assert (∀ i j l, line_at (startup s E b) i j = Some l → line_shape l) as H0.
    { intros i' j' l' Hl'. left. by eapply startup_lines. }
    revert Hwf H0. generalize (startup s E b) as g.
    generalize (access_list trace) as addrs. intros addrs. revert i j l.
    induction addrs as [|a addrs IH]; intros i j l g Hwf H0; [apply H0|].
    change (accesses (a :: addrs) g) with (accesses addrs (getData a g)).
    apply IH; [by apply getData_wf|by apply getData_line_shape].
Qed.

Lemma lines_stay_valid_witness :
  ∃ l', line_at (runTraceSim [Matched "L" 4 1; Matched "S" 8 1]
                   (getData 0 (startup 1 2 1))) 0 0 = Some l'
        ∧ valid l' ≠ 0.
Proof.
  destruct (lines_stay_valid [Matched "L" 4 1; Matched "S" 8 1]) as [H _].
  apply (H (getData 0 (startup 1 2 1)) 0%nat 0%nat (mk_line 1 0 0)).
  - apply getData_wf, startup_wf. solve_geometry.
  - reflexivity.
  - discriminate.
Defined.

Lemma accesses_origin (addrs : list Z) :
  ∀ (g : globals) (i j : nat) (l : line_t),
    wf g →
    line_at (accesses addrs g) i j = Some l →
    line_at g i j = Some l
    ∨ valid l ≠ 0 ∧ ∃ a, a ∈ addrs ∧ set_of g a = i ∧ tag_of g a = tag l.
Proof.
  induction addrs as [|a addrs IH]; intros g i j l Hwf Hl; [by left|].
  change (accesses (a :: addrs) g) with (accesses addrs (getData a g)) in Hl.
  destruct (IH (getData a g) i j l (getData_wf a g Hwf) Hl)
    as [Hold|(Hv & c & Hc & Hs & Ht)].
  - rewrite getData_line_at in Hold by done. case_decide as Hp; [|by left].
    destruct Hp as [-> ->]. injection Hold as <-.
    destruct (getData_touched a g Hwf) as (l' & Hl' & Hv' & _ & _).
    rewrite getData_line_at in Hl' by done. rewrite decide_True in Hl' by done.
    injection Hl' as <-. right. split; [done|].
    exists a. split; [by left|done].
  - right. split; [done|]. exists c. split; [by right|].
    destruct (set_of_args g (getData a g) c) as (<- & <- & _);
      [apply getData_args|apply getData_num_sets|]. done.
Qed.

(** X10. The cache holds only what the trace asked for: after a replay from
    the cache that [init] built, every valid line of set [i] holds the tag
    of an address of the trace whose set index is [i]. *)
Theorem resident_lines_were_accessed (trace : list fscanf_t) (s E b : Z)
    (i j : nat) (l : line_t) :
  geometry s E b →
  line_at (runTraceSim trace (startup s E b)) i j = Some l →
  valid l ≠ 0 →
  ∃ a, a ∈ access_list trace
       ∧ set_of (startup s E b) a = i ∧ tag_of (startup s E b) a = tag l.
Proof.
  intros Hgeo Hl Hv. rewrite runTraceSim_accesses in Hl.
  destruct (accesses_origin _ _ _ _ _ (startup_wf s E b Hgeo) Hl)
    as [Hold|(_ & H)]; [|done].
  apply startup_lines in Hold. by subst l.
Qed.

Lemma resident_lines_were_accessed_witness :
  ∃ a, a ∈ [0; 4; 4; 2]
       ∧ set_of (startup 1 2 1) a = 1%nat ∧ tag_of (startup 1 2 1) a = 0.
Proof.
  apply (resident_lines_were_accessed
           [Matched "L" 0 1; Matched "M" 4 1; Matched "S" 2 1] 1 2 1
           1%nat 0%nat (mk_line 1 0 3)).
  - solve_geometry.
  - reflexivity.
  - discriminate.
Defined.

(** ** Counting lines *)

Lemma sum_list_with_insert {A : Type} (f : A → nat) (l : list A) (i : nat) (x y : A) :
  l !! i = Some x →
  (sum_list_with f (<[i:=y]> l) + f x = sum_list_with f l + f y)%nat.
Proof.
  revert i. induction l as [|z l IH]; intros [|i] Hl; try done; simpl in *.
  - injection Hl as ->. lia.
  - specialize (IH i Hl). lia.
Qed.

Lemma sum_list_with_bound {A : Type} (f : A → nat) (l : list A) (m : nat) :
  (∀ x, x ∈ l → (f x ≤ m)%nat) → (sum_list_with f l ≤ length l * m)%nat.
Proof.
  induction l as [|z l IH]; intros H; simpl; [lia|].
  pose proof (H z ltac:(by left)). 
  assert (sum_list_with f l ≤ length l * m)%nat
    by (apply IH; intros x Hx; apply H; by right).
  lia.
Qed.

Lemma sum_list_with_zero {A : Type} (f : A → nat) (l : list A) :
  (∀ x, x ∈ l → f x = 0%nat) → sum_list_with f l = 0%nat.
Proof.
  induction l as [|z l IH]; intros H; simpl; [done|].
  rewrite (H z) by (by left). rewrite IH; [done|].
  intros x Hx. apply H. by right.
Qed.

Lemma count_if_le (P : line_t → bool) (s : list line_t) :
  (count_if P s ≤ length s)%nat.
Proof.
  unfold count_if.
  pose proof (sum_list_with_bound (λ l, if P l then 1%nat else 0%nat) s 1) as H.
  rewrite Nat.mul_1_r in H. apply H. intros x _. destruct (P x); lia.
Qed.

Lemma count_if_all (P : line_t → bool) (s : list line_t) :
  (∀ l, l ∈ s → P l = true) → count_if P s = length s.
Proof.
  unfold count_if. induction s as [|z s IH]; intros H; simpl; [done|].
  rewrite (H z) by (by left). rewrite IH; [done|].
  intros l Hl. apply H. by right.
Qed.

Lemma count_if_pos (P : line_t → bool) (s : list line_t) :
  (0 < count_if P s)%nat → ∃ j l, s !! j = Some l ∧ P l = true.
Proof.
  unfold count_if. induction s as [|z s IH]; simpl; [lia|].
  destruct (P z) eqn:Hz.
  - intros _. by exists 0%nat, z.
  - intros H. destruct (IH H) as (j & l & Hl & HP). by exists (S j), l.
Qed.

Lemma count_if_insert (P : line_t → bool) (s : list line_t) (j : nat) (x y : line_t) :
  s !! j = Some x →
  (count_if P (<[j:=y]> s) + (if P x then 1 else 0)
   = count_if P s + (if P y then 1 else 0))%nat.
Proof.
  intros H. unfold count_if.
  exact (sum_list_with_insert (λ l, if P l then 1%nat else 0%nat) s j x y H).
Qed.

(** Whether the line that an access writes was valid before. *)
Lemma outcome_old_valid (a : Z) (g : globals) :
  is_valid ((cache g !!! set_of g a) !!! touched_line a g)
  = match outcome a g with MissNoEvict => false | _ => true end.
Proof.
  unfold outcome, touched_line. destruct (find_line _ _ _) as [line|] eqn:Hf.
  - by apply find_line_Some in Hf as (_ & Hv & _).
  - by destruct (is_valid _).
Qed.

Lemma getData_valid_count (a : Z) (g : globals) :
  wf g →
  valid_count (getData a g)
  = (valid_count g + match outcome a g with MissNoEvict => 1 | _ => 0 end)%nat.
Proof.
  intros Hwf.
  destruct (access_in_bounds a g Hwf) as (_ & s & l & Hs & _ & _ & Hl).
  pose proof (outcome_old_valid a g) as Hold.
  rewrite (list_lookup_total_correct _ _ _ Hs) in Hold.
  rewrite (list_lookup_total_correct _ _ _ Hl) in Hold.
  unfold valid_count. rewrite getData_cache.
  rewrite (list_lookup_total_correct _ _ _ Hs).
  set (l' := mk_line _ _ _).
  pose proof (sum_list_with_insert (count_if is_valid) (cache g) (set_of g a) s
                (<[touched_line a g := l']> s) Hs) as Hout.
  pose proof (count_if_insert is_valid s (touched_line a g) l l' Hl) as Hin.
  rewrite Hold in Hin.
  assert (is_valid l' = true) as Hnew.
  { subst l'. unfold is_valid; simpl. destruct (outcome a g) eqn:Ho; try done.
    apply outcome_Hit in Ho as [Hv _]. simpl in Hv.
    rewrite (list_lookup_total_correct _ _ _ Hs) in Hv.
    rewrite (list_lookup_total_correct _ _ _ Hl) in Hv.
    rewrite (list_lookup_total_correct _ _ _ Hl).
    by apply negb_true_iff, Z.eqb_neq. }
  rewrite Hnew in Hin. destruct (outcome a g); lia.
Qed.

Lemma valid_count_le (g : globals) :
  wf g → Z.of_nat (valid_count g) ≤ num_sets g * assoc (args g).
Proof.
  intros Hwf. unfold valid_count.
  pose proof (sum_list_with_bound (count_if is_valid) (cache g)
                (Z.to_nat (assoc (args g)))) as H.
  rewrite (wf_sets g Hwf) in H.
  assert (0 ≤ num_sets g)
    by (rewrite (wf_num g Hwf); apply Z.pow_nonneg; lia).
  pose proof (wf_assoc g Hwf).
  assert (sum_list_with (count_if is_valid) (cache g)
          ≤ Z.to_nat (num_sets g) * Z.to_nat (assoc (args g)))%nat as Hle.
  { apply H. intros s Hs. apply list_elem_of_lookup in Hs as [i Hi].
    rewrite <- (wf_lines g Hwf _ _ Hi). apply count_if_le. }
  nia.
Qed.

(** The counters and the valid lines after [k] accesses without a wrap. *)
Lemma accesses_misses_account (addrs : list Z) :
  ∀ (k : Z) (g : globals),
    wf g → counted k g →
    misses (stats g) = evictions (stats g) + Z.of_nat (valid_count g) →
    k + Z.of_nat (length addrs) ≤ UINT_MAX →
    misses (stats (accesses addrs g))
    = evictions (stats (accesses addrs g)) + Z.of_nat (valid_count (accesses addrs g)).
Proof.
  induction addrs as [|a addrs IH]; intros k g Hwf Hc Hm Hlen; [done|].
  rewrite length_cons, Nat2Z.inj_succ in Hlen.
  change (accesses (a :: addrs) g) with (accesses addrs (getData a g)).
  destruct (getData_counted a k g Hc ltac:(lia)) as [_ Hc'].
  apply (IH (k + 1)); [by apply getData_wf|done| |lia].
  rewrite getData_valid_count by done. rewrite getData_stats.
  destruct Hc as (Hh & He & Hk).
  destruct (outcome a g); simpl;
    rewrite ?(uint_incr_small (misses (stats g))),
            ?(uint_incr_small (evictions (stats g))) by lia; lia.
Qed.

Lemma startup_valid_count (s E b : Z) : valid_count (startup s E b) = 0%nat.
Proof.
  unfold valid_count. apply sum_list_with_zero. intros s0 Hs0.
  simpl in Hs0. apply elem_of_replicate in Hs0 as [-> _].
  apply sum_list_with_zero. intros l Hl.
  by apply elem_of_replicate in Hl as [-> _].
Qed.

(** X11. In a replay of at most [2^32 - 1] accesses from the cache that
    [init] built, [misses] is [evictions] plus the number of valid lines:
    every miss either fills a line or evicts one. So the misses that did not
    evict are at most [num_sets * assoc]. *)
Theorem misses_fill_or_evict (trace : list fscanf_t) (s E b : Z) :
  geometry s E b →
  Z.of_nat (length (access_list trace)) ≤ UINT_MAX →
  let g := runTraceSim trace (startup s E b) in
  misses (stats g) = evictions (stats g) + Z.of_nat (valid_count g)
  ∧ misses (stats g) - evictions (stats g) ≤ 2 ^ s * E.
Proof.
  intros Hgeo Hlen g. pose proof (startup_wf s E b Hgeo) as Hwf.
  assert (misses (stats g) = evictions (stats g) + Z.of_nat (valid_count g)) as H.
  { unfold g. rewrite runTraceSim_accesses.
    apply (accesses_misses_account _ 0); [done| | |lia].
    - unfold counted; simpl; lia.
    - by rewrite startup_valid_count. }
  split; [done|].
  pose proof (valid_count_le g (runTraceSim_wf trace _ Hwf)) as Hle.
  destruct (replay_keeps_dimensions trace (startup s E b)) as (Ha & Hn & _).
  fold g in Ha, Hn. rewrite Ha, Hn in Hle. simpl in Hle.
  rewrite Z.shiftl_1_l in Hle. lia.
Qed.

Lemma misses_fill_or_evict_witness :
  let g := runTraceSim
             [Matched "L" 16 1; Matched "M" 32 1; Matched "L" 34 1;
              Matched "S" 24 1; Matched "L" 272 1; Matched "L" 528 1;
              Matched "M" 18 1] (startup 4 1 4) in
  misses (stats g) = evictions (stats g) + Z.of_nat (valid_count g).
Proof.
  destruct (misses_fill_or_evict
              [Matched "L" 16 1; Matched "M" 32 1; Matched "L" 34 1;
               Matched "S" 24 1; Matched "L" 272 1; Matched "L" 528 1;
               Matched "M" 18 1] 4 1 4) as [H _].
  - solve_geometry.
  - vm_compute. discriminate.
  - exact H.
Defined.

(** ** Which line a miss takes *)

(** On a miss the line written is the first line of the set with the least
    stamp. *)
Lemma miss_takes_first_least (a : Z) (g : globals) :
  wf g → outcome a g ≠ Hit →
  ∃ lv, line_at g (set_of g a) (touched_line a g) = Some lv
        ∧ (valid lv ≠ 0 ↔ outcome a g = MissWithEvict)
        ∧ (∀ j l, line_at g (set_of g a) j = Some l → lru lv ≤ lru l)
        ∧ (∀ j l, (j < touched_line a g)%nat →
                  line_at g (set_of g a) j = Some l → lru lv < lru l).
Proof.
  intros Hwf Hmiss.
  destruct (access_in_bounds a g Hwf) as (_ & s & lv & Hs & Hlen & _ & Hlv).
  assert (line_at g (set_of g a) (touched_line a g) = Some lv) as Hat
    by (apply line_at_Some; eauto).
  assert (∀ j l, line_at g (set_of g a) j = Some l →
                 (j < Z.to_nat (assoc (args g)))%nat ∧ s !!! j = l) as Hline.
  { intros j l Hl. split.
    - apply (line_at_is_Some g (set_of g a) j Hwf). eauto.
    - apply line_at_total in Hl. by rewrite (list_lookup_total_correct _ _ _ Hs) in Hl. }
  pose proof (outcome_old_valid a g) as Hold.
  rewrite (line_at_total _ _ _ _ Hat) in Hold.
  assert (touched_line a g = victim s (assoc (args g))) as Hv.
  { revert Hmiss. unfold outcome, touched_line.
    rewrite (list_lookup_total_correct _ _ _ Hs).
    by destruct (find_line _ _ _). }
  destruct (victim_min s (assoc (args g)) (wf_assoc g Hwf)) as (_ & Hmin & Hfirst).
  { intros j Hj. destruct (lookup_lt_is_Some_2 s j) as [l Hl]; [lia|].
    rewrite (list_lookup_total_correct _ _ _ Hl).
    pose proof (wf_lru g Hwf _ _ _ _ Hs Hl) as Hr.
    unfold ULONG_MAX. unfold ULLONG_MAX in Hr. lia. }
  rewrite <- Hv in Hmin, Hfirst.
  rewrite (list_lookup_total_correct _ _ _ Hlv) in Hmin, Hfirst.
  exists lv. split; [done|]. split; [|split].
  - rewrite <- is_valid_true, Hold. by destruct (outcome a g).
  - intros j l Hl. destruct (Hline j l Hl) as [Hj <-]. by apply Hmin.
  - intros j l Hj Hl. destruct (Hline j l Hl) as [_ <-]. by apply Hfirst.
Qed.









(** ** How long a line is kept *)

Lemma getData_stamps_below (a : Z) (g : globals) :
  wf g → stamps_below g → lru_count (stats g) < ULLONG_MAX →
  stamps_below (getData a g)
  ∧ lru_count (stats (getData a g)) = lru_count (stats g) + 1.
Proof.
  intros Hwf Hbelow Hc.
  assert (lru_count (stats (getData a g)) = lru_count (stats g) + 1) as Hclk.
  { rewrite getData_clock. unfold ullong_incr. apply Z.mod_small.
    pose proof (wf_clock g Hwf). unfold ULLONG_MAX in *. lia. }
  split; [|done]. intros i j l Hl. rewrite Hclk.
  destruct (decide ((i, j) = touched a g)) as [Heq|Hne].
  - injection Heq as -> ->.
    destruct (getData_touched a g Hwf) as (l' & Hl' & _ & _ & Hs).
    rewrite Hl' in Hl. injection Hl as <-. lia.
  - rewrite getData_untouched in Hl by done. specialize (Hbelow i j l Hl). lia.
Qed.

(** A valid line with the tag of the address is found. *)
Lemma held_is_hit (g : globals) (a : Z) (p : nat) (lp : line_t) :
  wf g → line_at g (set_of g a) p = Some lp → valid lp ≠ 0 →
  tag lp = tag_of g a → outcome a g = Hit.
Proof.
  intros Hwf Hl Hv Ht. unfold outcome.
  destruct (find_line_is_Some (cache g !!! set_of g a) (tag_of g a)
              (assoc (args g)) p) as [line ->]; [| | |done].
  - apply (line_at_is_Some g (set_of g a) p Hwf). eauto.
  - rewrite (line_at_total _ _ _ _ Hl). by apply is_valid_true.
  - by rewrite (line_at_total _ _ _ _ Hl).
Qed.

(** When every stamp of a set is below [c], writing stamp [c] into one line
    leaves all the other lines older than it. *)
Lemma older_after_stamp (s : list line_t) (p : nat) (old new : line_t) :
  s !! p = Some old →
  (∀ l, l ∈ s → lru l < lru new) →
  (length (<[p:=new]> s) ≤ older (<[p:=new]> s) (lru new) + 1)%nat.
Proof.
  intros Hold Hall. unfold older.
  pose proof (count_if_insert (λ l, lru l <? lru new) s p old new Hold) as Hin.
  rewrite (count_if_all (λ l, lru l <? lru new) s) in Hin
    by (intros l Hl; apply Z.ltb_lt; by apply Hall).
  assert ((lru old <? lru new) = true) as Hlt
    by (apply Z.ltb_lt, Hall; by eapply list_elem_of_lookup_2).
  cbv beta in Hin. rewrite Hlt, Z.ltb_irrefl in Hin. rewrite length_insert. lia.
Qed.

Lemma set_lines_below (g : globals) (i : nat) (s : list line_t) :
  stamps_below g → cache g !! i = Some s →
  ∀ l, l ∈ s → lru l < lru_count (stats g).
Proof.
  intros Hbelow Hs l Hl. apply list_elem_of_lookup in Hl as [j Hj].
  apply (Hbelow i j l). apply line_at_Some. eauto.
Qed.

(** The line just written is held, with every other line of its set
    older. *)
Lemma getData_still_held (a : Z) (g : globals) :
  wf g → stamps_below g →
  still_held (getData a g) a (touched_line a g) 0.
Proof.
  intros Hwf Hbelow.
  destruct (set_of_args g (getData a g) a) as (Hs & Ht & _);
    [apply getData_args|apply getData_num_sets|].
  destruct (getData_touched a g Hwf) as (l & Hl & Hv & Htag & Hstamp).
  destruct (access_in_bounds a g Hwf) as (_ & s & old & Hset & _ & _ & Hold).
  exists l. rewrite Hs, Ht. split; [done|]. split; [done|]. split; [done|].
  rewrite getData_cache, (list_lookup_total_correct _ _ _ Hset).
  rewrite list_lookup_total_insert_eq by (by eapply lookup_lt_Some).
  set (new := mk_line _ _ _).
  assert (l = new) as ->.
  { rewrite getData_line_at in Hl by done. rewrite decide_True in Hl by done.
    rewrite (list_lookup_total_correct _ _ _ Hset) in Hl.
    by injection Hl as <-. }
  rewrite Nat.add_0_r. apply (older_after_stamp s _ old new Hold).
  intros l' Hl'. rewrite Hstamp. by eapply set_lines_below.
Qed.

(** One more access, while some other line of the set is still older. *)
Lemma still_held_step (a b : Z) (g : globals) (p k : nat) :
  wf g → stamps_below g → lru_count (stats g) < ULLONG_MAX →
  still_held g a p k →
  (k + 2 ≤ Z.to_nat (assoc (args g)))%nat →
  still_held (getData b g) a p (S k).
Proof.
  intros Hwf Hbelow Hc (lp & Hlp & Hv & Htag & Hold) Hk.
  destruct (set_of_args g (getData b g) a) as (Hs & Ht & _);
    [apply getData_args|apply getData_num_sets|].
  unfold still_held. rewrite Hs, Ht.
  pose proof (set_of_lt g a Hwf) as Hlt.
  destruct (lookup_lt_is_Some_2 _ _ Hlt) as [s Hset].
  pose proof (wf_lines g Hwf _ _ Hset) as Hlen.
  rewrite (list_lookup_total_correct _ _ _ Hset) in Hold.
  assert (s !! p = Some lp) as Hsp.
  { apply line_at_Some in Hlp as (s' & Hs' & Hp). congruence. }
  destruct (decide ((set_of g a, p) = touched b g)) as [Heq|Hne].
  - (* the access writes the line itself: it can only be a hit *)
    injection Heq as Hseteq Hpeq.
    destruct (decide (outcome b g = Hit)) as [Hit|Hmiss].
    + destruct (access_writes_one_line b g Hwf) as (_ & Hhit & _).
      destruct (Hhit Hit) as (l0 & Hl0 & Hnew).
      rewrite <- Hseteq, <- Hpeq in Hl0, Hnew. rewrite Hlp in Hl0.
      injection Hl0 as <-.
      exists (mk_line (valid lp) (tag lp) (lru_count (stats g))).
      split; [done|]. split; [done|]. split; [done|].
      rewrite getData_cache, <- Hseteq, <- Hpeq.
      rewrite (list_lookup_total_correct _ _ _ Hset).
      rewrite list_lookup_total_insert_eq by (by eapply lookup_lt_Some).
      set (new := mk_line _ _ _).
      pose proof (older_after_stamp s p lp new Hsp) as Hnewer.
      assert (lru new = lru_count (stats g)) as Hlru by done.
      rewrite Hlru in Hnewer. simpl.
      assert (∀ l, l ∈ s → lru l < lru_count (stats g)) as Hall
        by (by eapply set_lines_below).
      specialize (Hnewer Hall). lia.
    + exfalso.
      destruct (miss_takes_first_least b g Hwf Hmiss) as (lv & Hlv & _ & Hmin & _).
      rewrite <- Hseteq, <- Hpeq, Hlp in Hlv. injection Hlv as <-.
      destruct (count_if_pos (λ l, lru l <? lru lp) s) as (j & l & Hj & Hlt').
      { unfold older in Hold. lia. }
      apply Z.ltb_lt in Hlt'.
      assert (line_at g (set_of g b) j = Some l) as Hat
        by (rewrite <- Hseteq; apply line_at_Some; eauto).
      specialize (Hmin j l Hat). lia.
  - (* the access writes another line *)
    exists lp. rewrite getData_untouched by done.
    split; [done|]. split; [done|]. split; [done|].
    rewrite getData_cache.
    destruct (decide (set_of g b = set_of g a)) as [Hsame|Hother].
    + rewrite Hsame, (list_lookup_total_correct _ _ _ Hset).
      rewrite list_lookup_total_insert_eq by (by eapply lookup_lt_Some).
      rewrite length_insert.
      destruct (lookup_lt_is_Some_2 s (touched_line b g)) as [old Hq].
      { pose proof (touched_line_lt b g Hwf). lia. }
      set (new := mk_line _ _ _).
      pose proof (count_if_insert (λ l, lru l <? lru lp) s (touched_line b g)
                    old new Hq) as Hin.
      unfold older in *.
      destruct (lru old <? lru lp), (lru new <? lru lp); lia.
    + rewrite list_lookup_total_insert_ne by done.
      rewrite (list_lookup_total_correct _ _ _ Hset). lia.
Qed.

Lemma still_held_accesses (a : Z) (bs : list Z) :
  ∀ (g : globals) (p k : nat),
    wf g → stamps_below g →
    lru_count (stats g) + Z.of_nat (length bs) ≤ ULLONG_MAX →
    still_held g a p k →
    (k + length bs + 1 ≤ Z.to_nat (assoc (args g)))%nat →
    still_held (accesses bs g) a p (k + length bs).
Proof.
  induction bs as [|b bs IH]; intros g p k Hwf Hbelow Hc Hheld Hk.
  - simpl. by rewrite Nat.add_0_r.
  - rewrite length_cons in Hk. rewrite length_cons, Nat2Z.inj_succ in Hc.
    change (accesses (b :: bs) g) with (accesses bs (getData b g)).
    destruct (getData_stamps_below b g Hwf Hbelow ltac:(lia)) as [Hbelow' Hclk].
    replace (k + length (b :: bs))%nat with (S k + length bs)%nat
      by (rewrite length_cons; lia).
    apply IH; [by apply getData_wf|done|lia| |rewrite getData_args; lia].
    apply still_held_step; try done; lia.
Qed.

(** X14. A line just used outlives the next [assoc - 1] accesses: when every
    stamp is below the clock and the clock does not pass its last value,
    then after an access to an address and at most [assoc - 1] further
    accesses, to any addresses, the address is still held and an access to
    it is a hit. *)
Theorem recently_used_line_survives (a : Z) (bs : list Z) (g : globals) :
  wf g →
  stamps_below g →
  lru_count (stats g) + 1 + Z.of_nat (length bs) ≤ ULLONG_MAX →
  Z.of_nat (length bs) < assoc (args g) →
  outcome a (accesses bs (getData a g)) = Hit.
Proof.
  intros Hwf Hbelow Hc Hlen.
  destruct (getData_stamps_below a g Hwf Hbelow ltac:(lia)) as [Hbelow1 Hclk].
  pose proof (getData_wf a g Hwf) as Hwf1.
  pose proof (getData_still_held a g Hwf Hbelow) as Hheld.
  destruct (still_held_accesses a bs (getData a g) (touched_line a g) 0 Hwf1 Hbelow1)
    as (lp & Hlp & Hv & Htag & _); [lia|done|rewrite getData_args; lia|].
  eapply held_is_hit; eauto. by apply accesses_wf.
Qed.

Lemma recently_used_line_survives_witness :
  outcome 8 (accesses [16; 24] (getData 8 (getData 0 (startup 0 3 3)))) = Hit.
Proof.
  apply (recently_used_line_survives 8 [16; 24] (getData 0 (startup 0 3 3))).
  - apply getData_wf, startup_wf. solve_geometry.
  - intros i j l Hl.
    destruct i as [|i]; [|vm_compute in Hl; destruct i; discriminate].
    destruct j as [|[|[|j]]]; vm_compute in Hl; try discriminate;
      injection Hl as <-; vm_compute; reflexivity.
  - vm_compute. discriminate.
  - vm_compute. reflexivity.
Defined.



(** ** The replay and the addresses *)

(** X16. A replay depends on the trace only through the addresses it calls
    [getData] with: two traces with the same list of accesses leave the same
    state. The size of a record is never used, [S] is replayed as [L], and
    [M] as two of them. *)
Theorem replay_depends_on_addresses (t1 t2 : list fscanf_t) (g : globals) :
  access_list t1 = access_list t2 → runTraceSim t1 g = runTraceSim t2 g.
Proof. intros H. by rewrite !runTraceSim_accesses, H. Qed.

Lemma replay_depends_on_addresses_witness :
  runTraceSim [Matched "M" 16 4; Matched "I" 0 2; Matched "S" 32 8] (startup 4 1 4)
  = runTraceSim [Matched "L" 16 1; Matched "S" 16 1; Matched "L" 32 1] (startup 4 1 4).
Proof. apply replay_depends_on_addresses. reflexivity. Defined.

(** ** main *)

Lemma help_then_exit (argv0 : string) (code : Z) :
  (help argv0 ;; @exit globals code) = ((help argv0).1, Exited 0).
Proof. reflexivity. Qed.

(** The loop over the options either reads them all, printing nothing, or
    ends the process in [help]. *)
Lemma getopt_loop_cases (argv0 : string) (opts : list getopt_t) (g : globals) :
  (∃ g', getopt_loop argv0 opts g = ([], Running g')
         ∧ Forall (λ o, option_goes_on o = true) opts
         ∧ cache g' = cache g ∧ stats g' = stats g)
  ∨ (getopt_loop argv0 opts g = ((help argv0).1, Exited 0)
     ∧ Exists (λ o, option_goes_on o = false) opts).
Proof.
  revert g. induction opts as [|o opts IH]; intros g.
  - left. exists g. by repeat split.
  - assert (∀ g1, cache g1 = cache g → stats g1 = stats g →
                  option_goes_on o = true →
                  (∃ g', getopt_loop argv0 opts g1 = ([], Running g')
                         ∧ Forall (λ o, option_goes_on o = true) (o :: opts)
                         ∧ cache g' = cache g ∧ stats g' = stats g)
                  ∨ (getopt_loop argv0 opts g1 = ((help argv0).1, Exited 0)
                     ∧ Exists (λ o, option_goes_on o = false) (o :: opts)))
      as Hnext.
    { intros g1 Hc Hs Ho. destruct (IH g1) as [(g' & Hg' & Hall & Hc' & Hs')|[He Hex]].
      - left. exists g'. repeat split; [done|by constructor|congruence..].
      - right. split; [done|by apply Exists_cons_tl]. }
    assert (∀ c, arg o = c →
                 bool_decide (c = "s"%char) || bool_decide (c = "E"%char)
                 || bool_decide (c = "b"%char) || bool_decide (c = "t"%char)
                 || bool_decide (c = "v"%char) = true →
                 option_goes_on o = true) as Hon
      by (intros c <- H; exact H).
    assert (arg o ≠ "s"%char → arg o ≠ "E"%char → arg o ≠ "b"%char →
            arg o ≠ "t"%char → arg o ≠ "v"%char →
            Exists (λ o, option_goes_on o = false) (o :: opts)) as Hoff.
    { intros. apply Exists_cons_hd. unfold option_goes_on.
      by rewrite !bool_decide_eq_false_2. }
    cbn [getopt_loop].
    destruct (decide (arg o = "s"%char)) as [Hs|Hs];
      [apply Hnext; [done|done|by apply (Hon _ Hs)]|].
    destruct (decide (arg o = "E"%char)) as [HE|HE];
      [apply Hnext; [done|done|by apply (Hon _ HE)]|].
    destruct (decide (arg o = "b"%char)) as [Hb|Hb];
      [apply Hnext; [done|done|by apply (Hon _ Hb)]|].
    destruct (decide (arg o = "t"%char)) as [Ht|Ht];
      [apply Hnext; [done|done|by apply (Hon _ Ht)]|].
    destruct (decide (arg o = "v"%char)) as [Hv|Hv];
      [apply Hnext; [done|done|by apply (Hon _ Hv)]|].
    destruct (decide (arg o = "h"%char)) as [Hh|Hh].
    + right. split; [apply help_then_exit|by apply Hoff].
    + right. split; [apply help_then_exit|by apply Hoff].
Qed.

Lemma help_no_core (argv0 : string) : ¬ core_started (help argv0).1.
Proof.
  destruct (help_output argv0) as (usage & Hhelp & Husage). rewrite Hhelp. simpl.
  rewrite Forall_forall in Husage.
  intros [Hin|[path Hin]]; by destruct (Husage _ Hin).
Qed.

(** What [main] does once the options are read and none is missing. *)
Lemma main_runs_core (argv0 : string) (opts : list getopt_t)
    (fopen : string → option (list fscanf_t)) (g : globals) (path : string) :
  getopt_loop argv0 opts globals0 = ([], Running g) →
  args_missing g = false →
  t_addr g = Some path →
  main argv0 opts fopen
  = match fopen path with
    | None => ([EvInit; EvRunTraceSim path], Faulted)
    | Some trace =>
        let g3 :=
          runTraceSim trace
            (init (mk_globals (cache g) (args g) (stats g)
                     (Z.shiftl 1 (idx_bits (args g)))
                     (Z.shiftl 1 (block_bits (args g))) (t_addr g))) in
        ([EvInit; EvRunTraceSim path;
          EvPrintSummary (hits (stats g3)) (misses (stats g3)) (evictions (stats g3))],
         Running 0)
    end.
Proof.
  intros Hloop Hmiss Hpath. unfold main. rewrite Hloop.
  unfold mbind at 1, prog_bind at 1. rewrite Hmiss.
  cbn [mret prog_ret mbind prog_bind emit app init set_cache t_addr].
  rewrite Hpath. cbn [mbind prog_bind emit app].
  by destruct (fopen path).
Qed.




(** [getData] reads and writes nothing but the cache, the counters and the
    geometry. *)
Lemma getData_core_eq (a : Z) (g g' : globals) :
  core_eq g g' → core_eq (getData a g) (getData a g').
Proof.
  destruct g as [c [v s E b] st n bs t], g' as [c' [v' s' E' b'] st' n' bs' t'].
  unfold core_eq. cbn [cache stats num_sets args idx_bits assoc block_bits].
  intros (-> & -> & -> & -> & -> & ->).
  unfold getData, evict, tag_of, set_of, set_stats.
  cbn [cache stats num_sets args idx_bits assoc block_bits].
  destruct (find_line _ _ _); [done|].
  cbn [cache stats num_sets args idx_bits assoc block_bits hits misses evictions
       lru_count].
  by destruct (is_valid _).
Qed.

Lemma runTraceSim_core_eq (trace : list fscanf_t) (g g' : globals) :
  core_eq g g' → core_eq (runTraceSim trace g) (runTraceSim trace g').
Proof.
  revert g g'. induction trace as [|[operation addr size|n] trace IH];
    intros g g' H; [done| |done].
  cbn [runTraceSim]. apply IH. unfold replay_record.
  repeat case_decide; auto using getData_core_eq.
Qed.

(** X18. When the options are read through, none is missing, they give a
    geometry that [main] can build and the trace file opens, [main] builds the cache, replays the trace and prints
    as its summary the counters of the replay that starts from the empty
    cache of the geometry given by the final values of [-s], [-E] and [-b];
    it then returns 0. The summary does not depend on [-v] or on anything
    else on the command line. *)
Theorem main_prints_replay_counters (argv0 : string) (opts : list getopt_t)
    (fopen : string → option (list fscanf_t)) (g : globals) (path : string)
    (trace : list fscanf_t) :
  getopt_loop argv0 opts globals0 = ([], Running g) →
  args_missing g = false →
  geometry (idx_bits (args g)) (assoc (args g)) (block_bits (args g)) →
  t_addr g = Some path →
  fopen path = Some trace →
  let st :=
    stats (runTraceSim trace
             (startup (idx_bits (args g)) (assoc (args g)) (block_bits (args g)))) in
  main argv0 opts fopen
  = ([EvInit; EvRunTraceSim path;
      EvPrintSummary (hits st) (misses st) (evictions st)], Running 0).
Proof.
  intros Hloop Hmiss _ Hpath Hopen st.
  rewrite (main_runs_core argv0 opts fopen g path Hloop Hmiss Hpath), Hopen.
  cbv zeta.
  assert (stats g = mk_stats 0 0 0 0) as Hst.
  { destruct (getopt_loop_cases argv0 opts globals0)
      as [(g' & Hg' & _ & _ & Hs)|[Hexit _]]; [|congruence].
    rewrite Hloop in Hg'. by injection Hg' as <-. }
  assert (core_eq
            (init (mk_globals (cache g) (args g) (stats g)
                     (Z.shiftl 1 (idx_bits (args g)))
                     (Z.shiftl 1 (block_bits (args g))) (t_addr g)))
            (startup (idx_bits (args g)) (assoc (args g)) (block_bits (args g))))
    as Hcore.
  { unfold core_eq, startup, init, set_cache.
    cbn [cache stats num_sets args idx_bits assoc block_bits]. by rewrite Hst. }
  apply (runTraceSim_core_eq trace) in Hcore as (_ & Hstats & _).
  subst st. by rewrite Hstats.
Qed.

Lemma main_prints_replay_counters_witness :
  main "csim"
    [opt "v" "" 0; opt "s" "9" 9; opt "s" "4" 4; opt "E" "1" 1; opt "b" "4" 4;
     opt "t" "yi.trace" 0]
    (λ _, Some [Matched "L" 16 1; Matched "M" 32 1; Matched "L" 34 1;
                Matched "S" 24 1; Matched "L" 272 1; Matched "L" 528 1;
                Matched "M" 18 1])
  = ([EvInit; EvRunTraceSim "yi.trace"; EvPrintSummary 4 5 3], Running 0).
Proof.
  refine (main_prints_replay_counters "csim"
           [opt "v" "" 0; opt "s" "9" 9; opt "s" "4" 4; opt "E" "1" 1;
            opt "b" "4" 4; opt "t" "yi.trace" 0]
           (λ _, Some [Matched "L" 16 1; Matched "M" 32 1; Matched "L" 34 1;
                       Matched "S" 24 1; Matched "L" 272 1; Matched "L" 528 1;
                       Matched "M" 18 1])
           (mk_globals [] (mk_args 1 4 1 4) (mk_stats 0 0 0 0) 0 0 (Some "yi.trace"))
           "yi.trace" _ eq_refl eq_refl _ eq_refl eq_refl).
  cbn [args idx_bits assoc block_bits]. solve_geometry.
Defined.

(** X19. An option [-h], or one that [getopt] does not know, anywhere on the
    command line makes [main] print the usage text and nothing else, and end
    the process with status 0, whatever the other options are: the cache is
    not built and no trace is opened. The status is 0 for an unknown option
    as well, since [help] ends the process before [exit(1)] is reached. *)
Theorem help_option_ends_with_usage (argv0 : string) (opts : list getopt_t)
    (fopen : string → option (list fscanf_t)) :
  Exists (λ o, option_goes_on o = false) opts →
  main argv0 opts fopen = ((help argv0).1, Exited 0)
  ∧ ¬ core_started (main argv0 opts fopen).1.
Proof.
  intros Hex.
  destruct (getopt_loop_cases argv0 opts globals0)
    as [(g & _ & Hall & _)|[Hloop _]].
  - apply Exists_exists in Hex as (o & Hin & Hoff).
    rewrite Forall_forall in Hall. specialize (Hall o Hin). congruence.
  - assert (main argv0 opts fopen = ((help argv0).1, Exited 0)) as ->
      by (unfold main; by rewrite Hloop).
    split; [done|]. apply help_no_core.
Qed.

Lemma help_option_ends_with_usage_witness :
  (main "csim" [opt "s" "4" 4; opt "?" "" 0; opt "t" "yi.trace" 0] (λ _, None)).2
  = Exited 0.
Proof.
  rewrite (proj1 (help_option_ends_with_usage "csim"
                    [opt "s" "4" 4; opt "?" "" 0; opt "t" "yi.trace" 0] (λ _, None)
                    ltac:(apply Exists_cons_tl, Exists_cons_hd; reflexivity))).
  reflexivity.
Defined.
